(** * Track.ts: tracks, track groups and their start / swap dispatch

    A shallow embedding of [src/Track.ts].  The two classes of the file,
    [TrackSingle] and [TrackGroup], become two modules; their methods become
    functions that thread the receiver ([this]) and a [World] holding
    everything the methods touch outside the receiver: the audio clock, the
    allocator of audio nodes, the calls issued on the audio graph, the console
    and the store of beat handles.

    JavaScript numbers are modelled by the rationals [Q]: the arithmetic of
    the file is a handful of additions of delays, and rounding is outside
    the model. *)

From Stdlib Require Import String Ascii List Bool Arith NArith QArith Lia Lqa
  Permutation.
Import ListNotations.

Local Open Scope string_scope.
Local Open Scope list_scope.
Local Open Scope Q_scope.

(** ** Enumerations of Track.ts *)

Inductive TrackBeatType := REPEATING | PRECISE | EXCLUDE.

Inductive TrackEventType :=
  START_PLAYBACK | STOP_PLAYBACK | BEAT | POSITION | SILENCED.

Inductive TrackSwapType := IN_OUT | OUT_IN | CROSS | CUT.

(** ** Adjustment options (automation.js, defaults.js) *)

(** Modelled from the spec: the ramp-shape enumeration is declared in
    automation.js, which is not part of the sources at hand.  The values of a
    TypeScript string enum are strings at run time, and are kept as such. *)
Definition AudioRampType := string.

(** Modelled from the spec: [AudioAdjustmentOptions] is declared in
    automation.js.  The spec gives its fields as
    [{ delay, duration, rampShape, startDelay? }]; a caller may leave any of
    them out, hence the options. *)
Module Partial.
Record t := mk {
  ramp : option AudioRampType;
  delay : option Q;
  duration : option Q;
  startDelay : option Q
}.
End Partial.
Definition AudioAdjustmentOptions : Type := Partial.t.

(** [Required<AudioAdjustmentOptions>]: the same record once merged with
    defaults. *)
Module Required.
Record t := mk {
  ramp : AudioRampType;
  delay : Q;
  duration : Q;
  startDelay : option Q
}.

(** [options.delay += d] *)
Definition add_delay (d : Q) (o : t) : t :=
  mk (ramp o) (delay o + d) (duration o) (startDelay o).
End Required.

(** [TrackSwapOptions = AudioAdjustmentOptions & { swap, swapDelay? }] *)
Record TrackSwapOptions := {
  swap_adjustment : AudioAdjustmentOptions;
  swap : option TrackSwapType;          (* [TrackSwapType | null] *)
  swapDelay : option Q
}.

(** [TrackSwapAdvancedOptions] *)
Record TrackSwapAdvancedOptions := {
  oldSource : Required.t;
  newSource : Required.t
}.

(** The argument of [swap]: [TrackSwapOptions | TrackSwapAdvancedOptions]. *)
Inductive SwapArgument :=
| SimpleSwap (o : TrackSwapOptions)
| AdvancedSwap (o : TrackSwapAdvancedOptions).

(** A [TrackSwapOptions] with every field of the adjustment present, as the
    defaults of defaults.js hold it. *)
Record RequiredSwapOptions := {
  rswap_adjustment : Required.t;
  rswap : option TrackSwapType;
  rswapDelay : Q
}.

(** The two constants of defaults.js that Track.ts reads.  Their values are
    not part of the sources at hand: they are parameters of the model. *)
Record Defaults := {
  startImmediate : Required.t;
  trackSwapDefault : RequiredSwapOptions
}.

(** [a ?? b] *)
Definition nullish {A} (a : option A) (b : A) : A :=
  match a with Some v => v | None => b end.

Infix "??" := nullish (at level 45, left associativity).

(** [a ?? b] where [b] may itself be undefined *)
Definition nullish_opt {A} (a b : option A) : option A :=
  match a with Some v => Some v | None => b end.

Infix "?|" := nullish_opt (at level 45, left associativity).

(** [options?.delay] *)
Definition options_delay (options : option AudioAdjustmentOptions) : option Q :=
  match options with Some o => Partial.delay o | None => None end.

(** Modelled from the spec: [buildOptions] is the default export of
    defaults.js.  The spec describes it as merging a caller-supplied partial
    parameter set with component-level defaults, each operation getting its
    own copy: every field is the caller's when present and the default's
    otherwise, and the defaults themselves are never written to. *)
Definition buildOptions (options : option AudioAdjustmentOptions)
    (defaults : Required.t) : Required.t :=
  match options with
  | None => defaults
  | Some o =>
      Required.mk
        (Partial.ramp o ?? Required.ramp defaults)
        (Partial.delay o ?? Required.delay defaults)
        (Partial.duration o ?? Required.duration defaults)
        (match Partial.startDelay o with
         | Some s => Some s
         | None => Required.startDelay defaults
         end)
  end.

(** Modelled from the spec: [buildOptions] at the type of the swap defaults.
    The adjustment fields are merged as above; [swap] and [swapDelay] are not
    fields of [AudioAdjustmentOptions] and come from the defaults. *)
Definition buildSwapOptions (options : option AudioAdjustmentOptions)
    (defaults : RequiredSwapOptions) : RequiredSwapOptions :=
  {| rswap_adjustment := buildOptions options (rswap_adjustment defaults);
     rswap := rswap defaults;
     rswapDelay := rswapDelay defaults |}.

(** A merged options object seen at the type [TrackSwapOptions], as
    [start] passes it to [swap]. *)
Definition asTrackSwapOptions (o : RequiredSwapOptions) : TrackSwapOptions :=
  let a := rswap_adjustment o in
  {| swap_adjustment :=
       Partial.mk (Some (Required.ramp a)) (Some (Required.delay a))
                  (Some (Required.duration a)) (Required.startDelay a);
     swap := rswap o;
     swapDelay := Some (rswapDelay o) |}.

(** ** The world outside a track *)

(** Audio nodes (gain nodes, [AudioSourceNode]s) are objects with identity. *)
Definition NodeId := nat.

(** A reference to a [Track] object passed as an argument, and a callback:
    both are only ever printed by the methods of this file. *)
Definition TrackRef := string.
Definition Callback := nat.

(** Calls issued on the audio graph, in the order they are made.  The classes
    behind them ([AudioContext], [GainNode], [AudioSourceNode], [automation])
    are collaborators outside Track.ts: a call is recorded, not interpreted. *)
Inductive AudioEvent :=
| CreateGain (g : NodeId)                          (* audioContext.createGain() *)
| GainConnect (g destination : NodeId)             (* gainNode.connect(destination) *)
| GainValueSet (g : NodeId) (v : Q)                (* gainNode.gain.value = v *)
| NewAudioSourceNode (s destination : NodeId)      (* new AudioSourceNode(ctx, dest) *)
| SourceLoad (s : NodeId) (path : string)          (* source.load(path) *)
| SourceClone (s clone : NodeId)                   (* source.clone() *)
| SourceDisconnect (s : NodeId)                    (* source.disconnect() *)
| SourceConnect (s destination : NodeId)           (* source.connect(destination) *)
| SourceStart (s : NodeId) (when : Q)              (* source.start(when) *)
| Automation (g : NodeId) (value : Q) (options : Required.t)
                             (* automation(ctx, gainNode.gain, value, options) *)
| SourceStartWith (s : NodeId) (delay : option Q)
    (options : option AudioAdjustmentOptions) (duration : option Q)
                             (* source.start(delay, options, duration) *).

(** What the methods print, with the arguments they interpolate. *)
Inductive ConsoleEntry :=
| LogStop (delay : option Q) (options : option AudioAdjustmentOptions)
| LogPlaySource (path : string) (options : option AudioAdjustmentOptions)
| LogLoadSource (path : string)
| LogSwap (options : option SwapArgument)
| LogVolume (volume : Q) (options : option AudioAdjustmentOptions)
| LogLoop (enabled : bool) (startSample endSample : option Q)
| LogJump (enabled : bool) (fromSample toSample : option Q)
| LogCreateBeat (type : TrackBeatType) (origin : Q) (period : option Q)
| LogClearBeats
| LogSyncPlayTo (track : TrackRef) (options : option AudioAdjustmentOptions)
| LogSyncStopTo (track : TrackRef) (options : option AudioAdjustmentOptions)
| LogListenFor (type : TrackEventType) (callback : Callback)
| WarnStartNoSource.                               (* console.warn of start *)

(** The fields of a [TrackBeat] object; its [cancel] method is
    [TrackBeat_cancel] below. *)
Record TrackBeat := {
  time : Q;
  isCancelled : bool
}.

(** A [TrackBeat] returned to a caller is a reference into the store. *)
Definition BeatRef := nat.

Record World := {
  currentTime : Q;                 (* audioContext.currentTime *)
  nextNode : NodeId;               (* identity of the next node created *)
  graph : list AudioEvent;
  console : list ConsoleEntry;
  beats : list TrackBeat           (* the TrackBeat objects created so far *)
}.

(** State passing over the world. *)
Definition M (A : Type) : Type := World -> A * World.

Definition ret {A} (a : A) : M A := fun w => (a, w).

Definition bind {A B} (m : M A) (k : A -> M B) : M B :=
  fun w => let (a, w') := m w in k a w'.

Declare Scope world_scope.
Delimit Scope world_scope with world.
Notation "x <- m ;; k" := (bind m (fun x => k))
  (at level 61, m at next level, right associativity) : world_scope.
Notation "m ;;; k" := (bind m (fun _ => k))
  (at level 61, right associativity) : world_scope.
Local Open Scope world_scope.

Definition emit (e : AudioEvent) : M unit := fun w =>
  (tt, {| currentTime := currentTime w; nextNode := nextNode w;
          graph := graph w ++ [e]; console := console w; beats := beats w |}).

Definition log (c : ConsoleEntry) : M unit := fun w =>
  (tt, {| currentTime := currentTime w; nextNode := nextNode w;
          graph := graph w; console := console w ++ [c]; beats := beats w |}).

(** One reading of the clock.  The world holds the reading; the methods of
    this file never move the clock themselves. *)
Definition now : M Q := fun w => (currentTime w, w).

Definition freshNode : M NodeId := fun w =>
  (nextNode w,
   {| currentTime := currentTime w; nextNode := S (nextNode w);
      graph := graph w; console := console w; beats := beats w |}).

Definition newBeat (b : TrackBeat) : M BeatRef := fun w =>
  (length (beats w),
   {| currentTime := currentTime w; nextNode := nextNode w;
      graph := graph w; console := console w; beats := beats w ++ [b] |}).

(** [() => {}], the [cancel] that [createBeat] puts in its result. *)
Definition TrackBeat_cancel (b : BeatRef) : M unit := ret tt.

(** The collaborators that create nodes. *)
Definition createGain : M NodeId :=
  g <- freshNode ;; emit (CreateGain g) ;;; ret g.

Definition newAudioSourceNode (destination : NodeId) : M NodeId :=
  s <- freshNode ;; emit (NewAudioSourceNode s destination) ;;; ret s.

Definition cloneSource (s : NodeId) : M NodeId :=
  c <- freshNode ;; emit (SourceClone s c) ;;; ret c.

(** ** class TrackSingle *)

Module TrackSingle.

Record t := mk {
  name : string;
  destination : NodeId;
  source : NodeId;
  gainNode : NodeId;
  gainValue : Q;                        (* this.gainNode.gain.value *)
  loadedSource : option NodeId;
  playingSource : option NodeId;
  isLoadSourceCalled : bool
}.

Definition set_gainValue (v : Q) (this : t) : t :=
  mk (name this) (destination this) (source this) (gainNode this) v
     (loadedSource this) (playingSource this) (isLoadSourceCalled this).

Definition set_loadedSource (s : option NodeId) (this : t) : t :=
  mk (name this) (destination this) (source this) (gainNode this)
     (gainValue this) s (playingSource this) (isLoadSourceCalled this).

Definition set_playingSource (s : option NodeId) (this : t) : t :=
  mk (name this) (destination this) (source this) (gainNode this)
     (gainValue this) (loadedSource this) s (isLoadSourceCalled this).

Definition set_isLoadSourceCalled (b : bool) (this : t) : t :=
  mk (name this) (destination this) (source this) (gainNode this)
     (gainValue this) (loadedSource this) (playingSource this) b.

(** Truthiness of an optional object. *)
Definition truthy {A} (o : option A) : bool :=
  match o with Some _ => true | None => false end.

(** The constructor.  A gain node created by [createGain] has gain 1. *)
Definition new (name : string) (destination source : NodeId) : M t :=
  g <- createGain ;;
  emit (GainConnect g destination) ;;;
  ret (mk name destination source g 1 (Some source) None false).

(** The stubs that only print. *)
Definition stop (delay : option Q) (options : option AudioAdjustmentOptions)
    (this : t) : M t :=
  log (LogStop delay options) ;;; ret this.

Definition swap (options : option SwapArgument) (this : t) : M t :=
  log (LogSwap options) ;;; ret this.

Definition volume (volume : Q) (options : option AudioAdjustmentOptions)
    (this : t) : M t :=
  log (LogVolume volume options) ;;; ret this.

Definition loop (enabled : bool) (startSample endSample : option Q)
    (this : t) : M t :=
  log (LogLoop enabled startSample endSample) ;;; ret this.

Definition jump (enabled : bool) (fromSample toSample : option Q)
    (this : t) : M t :=
  log (LogJump enabled fromSample toSample) ;;; ret this.

Definition createBeat (type : TrackBeatType) (origin : Q) (period : option Q)
    (this : t) : M (BeatRef * t) :=
  log (LogCreateBeat type origin period) ;;;
  b <- newBeat {| time := 0; isCancelled := false |} ;;
  ret (b, this).

Definition clearBeats (this : t) : M t :=
  log LogClearBeats ;;; ret this.

Definition syncPlayTo (track : TrackRef)
    (options : option AudioAdjustmentOptions) (this : t) : M t :=
  log (LogSyncPlayTo track options) ;;; ret this.

Definition syncStopTo (track : TrackRef)
    (options : option AudioAdjustmentOptions) (this : t) : M t :=
  log (LogSyncStopTo track options) ;;; ret this.

Definition listenFor (type : TrackEventType) (callback : Callback)
    (this : t) : M t :=
  log (LogListenFor type callback) ;;; ret this.

Definition loadSource (path : string) (this : t) : M (NodeId * t) :=
  log (LogLoadSource path) ;;;
  s <- newAudioSourceNode (gainNode this) ;;
  ret (s, this).

Section WithDefaults.

Variable defaults : Defaults.

(** The first [if] of [start]: a playing source and no loaded one. *)
Definition implicitLoad (this : t) : M t :=
  match playingSource this, loadedSource this with
  | Some p, None =>
      c <- cloneSource p ;;
      ret (set_isLoadSourceCalled true (set_loadedSource (Some c) this))
  | _, _ => ret this
  end.

(** [if (duration != undefined) this.stop(d + duration)] *)
Definition stopAfter (d : Q) (duration : option Q) (this : t) : M t :=
  match duration with
  | Some du => stop (Some (d + du)) None this
  | None => ret this
  end.

Definition start (delay : option Q) (options : option AudioAdjustmentOptions)
    (duration : option Q) (this : t) : M t :=
  this <- implicitLoad this ;;
  if isLoadSourceCalled this && truthy (loadedSource this) then
    let swapOptions := buildSwapOptions options (trackSwapDefault defaults) in
    this <- swap (Some (SimpleSwap (asTrackSwapOptions swapOptions))) this ;;
    stopAfter (options_delay options ?| delay ?? 0) duration this
  else
    match loadedSource this with
    | Some loaded =>
        emit (SourceDisconnect loaded) ;;;
        let this := set_playingSource (Some loaded) this in
        emit (SourceConnect loaded (gainNode this)) ;;;
        let this := set_loadedSource None this in
        let startOptions := buildOptions options (startImmediate defaults) in
        let startOptions :=
          match delay, options_delay options with
          | Some d, None => Required.add_delay d startOptions
          | _, _ => startOptions
          end in
        let currentGain := gainValue this in
        emit (GainValueSet (gainNode this) 0) ;;;
        let this := set_gainValue 0 this in
        t0 <- now ;;
        emit (SourceStart loaded (t0 + Required.delay startOptions)) ;;;
        emit (Automation (gainNode this) currentGain startOptions) ;;;
        stopAfter (Required.delay startOptions) duration this
    | None =>
        log WarnStartNoSource ;;; ret this
    end.

Definition playSource (path : string)
    (options : option AudioAdjustmentOptions) (this : t)
    : M (NodeId * t) :=
  log (LogPlaySource path options) ;;;
  r <- loadSource path this ;;
  let (audioSource, this) := r in
  this <- start (Some 0) options None this ;;
  ret (audioSource, this).

End WithDefaults.

End TrackSingle.

(** ** Plain objects used as maps

    [TrackGroup.tracks] is an object literal, [{}], indexed by track names.
    What the class does with it depends on three things an object has beyond
    a list of entries, and the model keeps them:
    - its own keys come in the order of [Object.keys] and [for ... in]:
      array indices first, in numeric order, then the other names in the
      order they were first assigned;
    - assigning to the name [__proto__] creates no key: it replaces the
      prototype of the object, and reading that name gives the prototype;
    - [for ... in] goes on, after the own keys, with the enumerable
      properties of the prototype, when a track has become the prototype. *)

(** The value of a decimal digit. *)
Definition digit (c : Ascii.ascii) : option N :=
  let n := Ascii.N_of_ascii c in
  if N.leb 48 n && N.leb n 57 then Some (n - 48)%N else None.

Fixpoint digits (s : string) (acc : N) : option N :=
  match s with
  | EmptyString => Some acc
  | String c s' =>
      match digit c with
      | Some d => digits s' (10 * acc + d)%N
      | None => None
      end
  end.

(** An array index: the canonical decimal form of an integer below
    [2^32 - 1]. *)
Definition arrayIndex (s : string) : option N :=
  match s with
  | EmptyString => None
  | String c s' =>
      if Ascii.eqb c "0" && negb (String.eqb s' "") then None
      else
        match digits s 0 with
        | Some n => if N.ltb n 4294967295 then Some n else None
        | None => None
        end
  end.

Module JsObject.
Section Values.
Context {V : Type}.

(** The own properties, in the order of [Object.keys], and the object that
    was assigned to [__proto__], if any: [None] is [Object.prototype]. *)
Record t := mk {
  own : list (string * V);
  proto : option V
}.

(** [{}] *)
Definition empty : t := mk [] None.

(** The own property [k]. *)
Fixpoint lookup (k : string) (l : list (string * V)) : option V :=
  match l with
  | [] => None
  | (k', v) :: l' => if String.eqb k k' then Some v else lookup k l'
  end.

(** The own property [k], which exists, given another value. *)
Fixpoint replace (k : string) (v : V) (l : list (string * V))
    : list (string * V) :=
  match l with
  | [] => []
  | (k', v') :: l' =>
      if String.eqb k k' then (k', v) :: l' else (k', v') :: replace k v l'
  end.

(** A new array index [k], of value [n], put where the order wants it. *)
Fixpoint insertIndex (n : N) (k : string) (v : V) (l : list (string * V))
    : list (string * V) :=
  match l with
  | [] => [(k, v)]
  | (k', v') :: l' =>
      match arrayIndex k' with
      | Some n' =>
          if N.ltb n' n then (k', v') :: insertIndex n k v l'
          else (k, v) :: l
      | None => (k, v) :: l
      end
  end.

(** The own property [k] created or given another value. *)
Definition define (k : string) (v : V) (l : list (string * V))
    : list (string * V) :=
  match lookup k l with
  | Some _ => replace k v l
  | None =>
      match arrayIndex k with
      | Some n => insertIndex n k v l
      | None => l ++ [(k, v)]
      end
  end.

(** [o[k] = v], [v] being an object. *)
Definition set (k : string) (v : V) (o : t) : t :=
  if String.eqb k "__proto__" then mk (own o) (Some v)
  else mk (define k v (own o)) (proto o).

(** What [o[k]] is: a value that was stored in [o], under [k] or as the
    prototype, or something else: [undefined], or what [k] names further up,
    a member of [Object.prototype] or of the track that is the prototype,
    none of which is a track. *)
Inductive Lookup :=
| Found (v : V)
| NoTrack.

(** [o[k]] *)
Definition get (k : string) (o : t) : Lookup :=
  match lookup k (own o) with
  | Some v => Found v
  | None =>
      if String.eqb k "__proto__" then
        match proto o with
        | Some v => Found v
        | None => NoTrack
        end
      else NoTrack
  end.

(** The object that [o[k]] gave has changed, in place, to [v]. *)
Definition mutate (k : string) (v : V) (o : t) : t :=
  match lookup k (own o) with
  | Some _ => mk (replace k v (own o)) (proto o)
  | None =>
      if String.eqb k "__proto__" then mk (own o) (Some v) else o
  end.

(** [Object.keys(o)] *)
Definition keys (o : t) : list string := map fst (own o).

(** [Object.keys(o).includes(k)] *)
Definition includes (k : string) (ks : list string) : bool :=
  existsb (String.eqb k) ks.
End Values.
End JsObject.
Arguments JsObject.t : clear implicits.
Arguments JsObject.Lookup : clear implicits.

(** What an enumerable field of a [TrackSingle] holds, as far as calling a
    method of [Track] on it goes: an [AudioSourceNode]; [undefined]; or a
    string, the context, a gain node, a boolean, which have no such method. *)
Inductive FieldValue :=
| IsSource (s : NodeId)
| IsUndefined
| IsOther.

Definition sourceField (s : option NodeId) : FieldValue :=
  match s with Some n => IsSource n | None => IsUndefined end.

(** The enumerable properties of a [TrackSingle]: the parameter properties
    of the constructor, [name] first, then the fields in the order the class
    declares them.  Its methods and the getter [_time] are on the prototype
    of the class and are not enumerable.  A field that was never assigned
    holds [undefined], as one that was assigned [undefined] does. *)
Definition enumerableFields (tr : TrackSingle.t)
    : list (string * FieldValue) :=
  [("name", IsOther);
   ("audioContext", IsOther);
   ("destination", IsOther);
   ("source", IsSource (TrackSingle.source tr));
   ("gainNode", IsOther);
   ("loadedSource", sourceField (TrackSingle.loadedSource tr));
   ("playingSource", sourceField (TrackSingle.playingSource tr));
   ("isLoadSourceCalled", IsOther)].

(** What a method can throw. *)
Inductive JsError :=
| NameIsGroupName (name : string)     (* Error: ... it is the name of this group track *)
| NameExists (name : string)          (* Error: ... it already exists in this group track *)
| TypeError.                          (* a method called on what has none *)

Inductive Result (A : Type) :=
| Ok (a : A)
| Throw (e : JsError).
Arguments Ok {A} a.
Arguments Throw {A} e.

(** ** class TrackGroup *)

Module TrackGroup.

Record t := mk {
  name : string;
  destination : NodeId;
  source : NodeId;
  gainNode : NodeId;
  tracks : JsObject.t TrackSingle.t
}.

Definition set_tracks (ts : JsObject.t TrackSingle.t) (this : t) : t :=
  mk (name this) (destination this) (source this) (gainNode this) ts.

(** The constructor. *)
Definition new (name : string) (destination source : NodeId) : M t :=
  g <- createGain ;;
  emit (GainConnect g destination) ;;;
  track <- TrackSingle.new name g source ;;
  ret (mk name destination source g (JsObject.set name track JsObject.empty)).

Definition track (name : string) (this : t) : JsObject.Lookup TrackSingle.t :=
  JsObject.get name (tracks this).

Definition primaryTrack (this : t) : JsObject.Lookup TrackSingle.t :=
  JsObject.get (name this) (tracks this).

(** Truthiness of an optional string: [undefined] and the empty string are
    falsy. *)
Definition truthy_path (path : option string) : option string :=
  match path with
  | Some p => if String.eqb p "" then None else Some p
  | None => None
  end.

Definition newTrack (name : string) (path : option string)
    (source : option NodeId) (this : t)
    : M (Result TrackSingle.t * t) :=
  if String.eqb name (TrackGroup.name this) then
    ret (Throw (NameIsGroupName name), this)
  else if JsObject.includes name (JsObject.keys (tracks this)) then
    ret (Throw (NameExists name), this)
  else
    audioSource <-
      match source with
      | Some s => ret s
      | None =>
          s <- newAudioSourceNode (gainNode this) ;;
          match truthy_path path with
          | Some p => emit (SourceLoad s p) ;;; ret s
          | None => ret s
          end
      end ;;
    track <- TrackSingle.new name (gainNode this) audioSource ;;
    ret (Ok track, set_tracks (JsObject.set name track (tracks this)) this).

(** The part of [for (const k in this.tracks) this.tracks[k]?.method(...)]
    that goes through the own keys: the method runs on the track stored
    under each key, which it changes in place. *)
Fixpoint forOwn (method : TrackSingle.t -> M TrackSingle.t)
    (ks : list string) (this : t) : M t :=
  match ks with
  | [] => ret this
  | k :: ks' =>
      this <-
        match JsObject.lookup k (JsObject.own (tracks this)) with
        | Some tr =>
            tr' <- method tr ;;
            ret (set_tracks
                   (JsObject.mk (JsObject.replace k tr' (JsObject.own (tracks this)))
                                (JsObject.proto (tracks this)))
                   this)
        | None => ret this
        end ;;
      forOwn method ks' this
  end.

(** The part that goes through the enumerable fields of a track that is the
    prototype.  A field whose name is an own key was seen already.  [?.]
    passes over [undefined]; a string, the context, a gain node and a boolean
    have no method of that name, and calling it is a [TypeError], which ends
    the loop; on an [AudioSourceNode] the call is [onSource]. *)
Fixpoint forInherited (onSource : NodeId -> M (Result unit))
    (fields : list (string * FieldValue)) (seen : list string)
    : M (Result unit) :=
  match fields with
  | [] => ret (Ok tt)
  | (k, value) :: fields' =>
      if JsObject.includes k seen then forInherited onSource fields' seen
      else
        match value with
        | IsUndefined => forInherited onSource fields' seen
        | IsOther => ret (Throw TypeError)
        | IsSource s =>
            r <- onSource s ;;
            match r with
            | Ok _ => forInherited onSource fields' seen
            | Throw e => ret (Throw e)
            end
        end
  end.

(** [for (const k in this.tracks) this.tracks[k]?.method(...)] *)
Definition forIn (method : TrackSingle.t -> M TrackSingle.t)
    (onSource : NodeId -> M (Result unit)) (this : t)
    : M (Result unit * t) :=
  this <- forOwn method (JsObject.keys (tracks this)) this ;;
  match JsObject.proto (tracks this) with
  | None => ret (Ok tt, this)
  | Some p =>
      r <- forInherited onSource (enumerableFields p)
             (JsObject.keys (tracks this)) ;;
      ret (r, this)
  end.

(** Modelled from the spec: AudioSourceNode.js is not part of the sources at
    hand.  Of the methods that a group hands to all its tracks, the spec
    gives the playback primitive [start] only; Track.ts itself calls it.  The
    call to any other one is a [TypeError]. *)
Definition noSuchMethod (s : NodeId) : M (Result unit) :=
  ret (Throw TypeError).

(** [this.primaryTrack().method(...)]: a [TypeError] when what
    [primaryTrack()] gives is no track. *)
Definition onPrimary {A} (method : TrackSingle.t -> M (A * TrackSingle.t))
    (this : t) : M (Result A * t) :=
  match primaryTrack this with
  | JsObject.Found p =>
      r <- method p ;;
      let (a, p') := r in
      ret (Ok a, set_tracks (JsObject.mutate (name this) p' (tracks this)) this)
  | JsObject.NoTrack => ret (Throw TypeError, this)
  end.

(** A method of the primary track whose result is the track itself. *)
Definition returningTrack (method : TrackSingle.t -> M TrackSingle.t)
    (tr : TrackSingle.t) : M (unit * TrackSingle.t) :=
  tr' <- method tr ;; ret (tt, tr').

Definition stop (delay : option Q) (options : option AudioAdjustmentOptions)
    (this : t) : M (Result unit * t) :=
  forIn (TrackSingle.stop delay options) noSuchMethod this.

Definition loadSource (path : string) (this : t) : M (Result NodeId * t) :=
  onPrimary (TrackSingle.loadSource path) this.

Definition swap (options : option SwapArgument) (this : t)
    : M (Result unit * t) :=
  onPrimary (returningTrack (TrackSingle.swap options)) this.

Definition volume (volume : Q) (options : option AudioAdjustmentOptions)
    (this : t) : M t :=
  log (LogVolume volume options) ;;; ret this.

Definition loop (enabled : bool) (startSample endSample : option Q)
    (this : t) : M (Result unit * t) :=
  onPrimary (returningTrack (TrackSingle.loop enabled startSample endSample))
            this.

Definition jump (enabled : bool) (fromSample toSample : option Q)
    (this : t) : M (Result unit * t) :=
  onPrimary (returningTrack (TrackSingle.jump enabled fromSample toSample))
            this.

Definition createBeat (type : TrackBeatType) (origin : Q)
    (period : option Q) (this : t) : M (Result BeatRef * t) :=
  onPrimary (TrackSingle.createBeat type origin period) this.

Definition clearBeats (this : t) : M (Result unit * t) :=
  forIn TrackSingle.clearBeats noSuchMethod this.

Definition syncPlayTo (track : TrackRef)
    (options : option AudioAdjustmentOptions) (this : t)
    : M (Result unit * t) :=
  forIn (TrackSingle.syncPlayTo track options) noSuchMethod this.

Definition syncStopTo (track : TrackRef)
    (options : option AudioAdjustmentOptions) (this : t)
    : M (Result unit * t) :=
  forIn (TrackSingle.syncStopTo track options) noSuchMethod this.

Definition listenFor (type : TrackEventType) (callback : Callback)
    (this : t) : M (Result unit * t) :=
  onPrimary (returningTrack (TrackSingle.listenFor type callback)) this.

Section WithDefaults.

Variable defaults : Defaults.

(** [source.start(delay, options, duration)], the call that [start] of a
    group makes on an [AudioSourceNode] it finds among the fields of a
    prototype. *)
Definition startOnSource (delay : option Q)
    (options : option AudioAdjustmentOptions) (duration : option Q)
    (s : NodeId) : M (Result unit) :=
  emit (SourceStartWith s delay options duration) ;;; ret (Ok tt).

Definition start (delay : option Q)
    (options : option AudioAdjustmentOptions) (duration : option Q)
    (this : t) : M (Result unit * t) :=
  forIn (TrackSingle.start defaults delay options duration)
        (startOnSource delay options duration) this.

Definition playSource (path : string)
    (options : option AudioAdjustmentOptions) (this : t)
    : M (Result NodeId * t) :=
  onPrimary (TrackSingle.playSource defaults path options) this.

End WithDefaults.

End TrackGroup.

(** ** Vocabulary of the statements *)

(** The effective delay of a call [start(delay, options)]: [options.delay]
    when present, else the positional [delay], else 0. *)
Definition effectiveDelay (delay : option Q)
    (options : option AudioAdjustmentOptions) : Q :=
  match options_delay options, delay with
  | Some d, _ => d
  | None, Some d => d
  | None, None => 0
  end.

(** The playbacks scheduled by a run of calls: source and clock time. *)
Fixpoint scheduledStarts (events : list AudioEvent) : list (NodeId * Q) :=
  match events with
  | [] => []
  | SourceStart s when :: events' => (s, when) :: scheduledStarts events'
  | _ :: events' => scheduledStarts events'
  end.

(** The delays of the [stop] calls that were printed. *)
Fixpoint stopsIssued (entries : list ConsoleEntry) : list (option Q) :=
  match entries with
  | [] => []
  | LogStop d _ :: entries' => d :: stopsIssued entries'
  | _ :: entries' => stopsIssued entries'
  end.

(** How many times [swap] was entered. *)
Fixpoint countSwaps (entries : list ConsoleEntry) : nat :=
  match entries with
  | [] => 0%nat
  | LogSwap _ :: entries' => S (countSwaps entries')
  | _ :: entries' => countSwaps entries'
  end.

(** How many times [start] warned. *)
Fixpoint countWarnings (entries : list ConsoleEntry) : nat :=
  match entries with
  | [] => 0%nat
  | WarnStartNoSource :: entries' => S (countWarnings entries')
  | _ :: entries' => countWarnings entries'
  end.

(** What [this.stop(d + duration)] prints when a duration is given. *)
Definition stopEntry (d : Q) (duration : option Q) : list ConsoleEntry :=
  match duration with
  | Some du => [LogStop (Some (d + du)) None]
  | None => []
  end.

(** The world after some calls on the graph and some printing, nothing else
    having changed but the allocator. *)
Definition extends (w : World) (events : list AudioEvent)
    (printed : list ConsoleEntry) (allocated : nat) (w' : World) : Prop :=
  w' = {| currentTime := currentTime w;
          nextNode := (nextNode w + allocated)%nat;
          graph := graph w ++ events;
          console := console w ++ printed;
          beats := beats w |}.

Section Outcomes.

Variable defaults : Defaults.
Variables (delay : option Q) (options : option AudioAdjustmentOptions)
          (duration : option Q).

(** The swap case: the options merged with the swap defaults go to [swap],
    then a stop is issued at the effective delay plus the duration.  The
    track itself is as before. *)
Definition swapped (this : TrackSingle.t) (w : World)
    (r : TrackSingle.t * World) : Prop :=
  fst r = this /\
  extends w []
    (LogSwap (Some (SimpleSwap (asTrackSwapOptions
                (buildSwapOptions options (trackSwapDefault defaults)))))
     :: stopEntry (effectiveDelay delay options) duration)
    0 (snd r).

(** The implicit-load case: the playing source [p] is cloned into the
    loaded slot, the flag is set, and the call goes on as a swap. *)
Definition clonedThenSwapped (p : NodeId) (this : TrackSingle.t) (w : World)
    (r : TrackSingle.t * World) : Prop :=
  let c := nextNode w in
  fst r = TrackSingle.set_isLoadSourceCalled true
            (TrackSingle.set_loadedSource (Some c) this) /\
  extends w [SourceClone p c]
    (LogSwap (Some (SimpleSwap (asTrackSwapOptions
                (buildSwapOptions options (trackSwapDefault defaults)))))
     :: stopEntry (effectiveDelay delay options) duration)
    1 (snd r).

(** The plain start of the loaded source [s] under the merged adjustment
    [startOptions]: the five calls on the graph in order, the source moved
    from the loaded to the playing slot, the gain left at zero. *)
Definition plainStarted (s : NodeId) (startOptions : Required.t)
    (this : TrackSingle.t) (w : World) (r : TrackSingle.t * World) : Prop :=
  let g := TrackSingle.gainNode this in
  fst r = TrackSingle.set_gainValue 0
            (TrackSingle.set_loadedSource None
               (TrackSingle.set_playingSource (Some s) this)) /\
  extends w
    [SourceDisconnect s;
     SourceConnect s g;
     GainValueSet g 0;
     SourceStart s (currentTime w + Required.delay startOptions);
     Automation g (TrackSingle.gainValue this) startOptions]
    (stopEntry (Required.delay startOptions) duration)
    0 (snd r).

(** The adjustment a plain start runs under: the options merged with
    [startImmediate], the positional delay added when the options carry
    none. *)
Definition mergedStart (startOptions : Required.t) : Prop :=
  let merged := buildOptions options (startImmediate defaults) in
  Required.ramp startOptions = Required.ramp merged /\
  Required.duration startOptions = Required.duration merged /\
  Required.startDelay startOptions = Required.startDelay merged /\
  Required.delay startOptions ==
    match options_delay options, delay with
    | Some d, _ => d
    | None, Some d => Required.delay (startImmediate defaults) + d
    | None, None => Required.delay (startImmediate defaults)
    end.

(** The no-source case: a warning and nothing else. *)
Definition warned (this : TrackSingle.t) (w : World)
    (r : TrackSingle.t * World) : Prop :=
  fst r = this /\ extends w [] [WarnStartNoSource] 0 (snd r).

(** The dispatch of [start] as the spec words it: three cases, the second
    one taken whenever a source is staged. *)
Definition threeCases (this : TrackSingle.t) (w : World)
    (r : TrackSingle.t * World) : Prop :=
  match TrackSingle.playingSource this, TrackSingle.loadedSource this with
  | Some p, None => clonedThenSwapped p this w r
  | _, Some _ => swapped this w r
  | None, None => warned this w r
  end.

End Outcomes.

(** [playSource] as the spec words it: [loadSource(path)], then
    [start(0, options)], the result being the source of [loadSource]. *)
Definition playSource_spec (defaults : Defaults) (path : string)
    (options : option AudioAdjustmentOptions) (this : TrackSingle.t)
    : M (NodeId * TrackSingle.t) :=
  r <- TrackSingle.loadSource path this ;;
  this' <- TrackSingle.start defaults (Some 0) options None (snd r) ;;
  ret (fst r, this').

(** The occurrences of a repeating rule, [origin + k * period], and the next
    fire time after [t] as the spec words it: the occurrence after [t] of
    least [k]. *)
Definition occurrence (origin period : Q) (k : nat) : Q :=
  origin + inject_Z (Z.of_nat k) * period.

Definition nextOccurrence (origin period t next : Q) : Prop :=
  exists k : nat,
    next == occurrence origin period k /\
    t < next /\
    forall j : nat, t < occurrence origin period j -> (k <= j)%nat.

(** When [start] goes to [swap]: the flag is set and a source is loaded, or
    the implicit load is about to make it so. *)
Definition swapGate (this : TrackSingle.t) : bool :=
  (TrackSingle.isLoadSourceCalled this
     && TrackSingle.truthy (TrackSingle.loadedSource this))
  || (TrackSingle.truthy (TrackSingle.playingSource this)
        && negb (TrackSingle.truthy (TrackSingle.loadedSource this))).

(** ** Sample inputs *)

Definition sampleDefaults : Defaults :=
  {| startImmediate := Required.mk "linear" 0 0 None;
     trackSwapDefault :=
       {| rswap_adjustment := Required.mk "linear" 0 (1 # 2) None;
          rswap := Some OUT_IN;
          rswapDelay := 0 |} |}.

(** A context whose clock reads 10, with node 0 already created. *)
Definition sampleWorld : World :=
  {| currentTime := 10; nextNode := 1%nat; graph := []; console := [];
     beats := [] |}.

(** [new TrackSingle("bgm", ctx, destination, source)], source being node 0. *)
Definition freshTrack : TrackSingle.t :=
  fst (TrackSingle.new "bgm" 0%nat 0%nat sampleWorld).
Definition freshWorld : World :=
  snd (TrackSingle.new "bgm" 0%nat 0%nat sampleWorld).

(** [{ delay: 2 }] *)
Definition delayTwo : AudioAdjustmentOptions :=
  Partial.mk None (Some 2) None None.

(** A context whose clock reads 2.5. *)
Definition beatWorld : World :=
  {| currentTime := 5 # 2; nextNode := 2%nat; graph := []; console := [];
     beats := [] |}.

(** [track.loadSource("a.ogg")] on the fresh track. *)
Definition loadedOnFresh : NodeId * TrackSingle.t * World :=
  TrackSingle.loadSource "a.ogg" freshTrack freshWorld.

(** [track.createBeat(TrackBeatType.REPEATING, 0, 1)] at clock time 2.5. *)
Definition repeatingBeat : BeatRef * TrackSingle.t * World :=
  TrackSingle.createBeat REPEATING 0 (Some 1) freshTrack beatWorld.

(** [track.start()] on the fresh track. *)
Definition freshStart : TrackSingle.t * World :=
  TrackSingle.start sampleDefaults None None None freshTrack freshWorld.

(** The same world with another console. *)
Definition withConsole (c : list ConsoleEntry) (w : World) : World :=
  {| currentTime := currentTime w; nextNode := nextNode w; graph := graph w;
     console := c; beats := beats w |}.

(** ** Vocabulary of the statements on groups *)

(** A group that has its tracks as own properties only: each name once, the
    primary track under the name of the group, and [Object.prototype] for
    prototype. *)
Definition wellFormed (this : TrackGroup.t) : Prop :=
  NoDup (JsObject.keys (TrackGroup.tracks this)) /\
  JsObject.lookup (TrackGroup.name this)
    (JsObject.own (TrackGroup.tracks this)) <> None /\
  JsObject.proto (TrackGroup.tracks this) = None.

(** [method] ran once on every member, one member after the other, each on
    the world the previous one left. *)
Inductive Broadcast (method : TrackSingle.t -> M TrackSingle.t)
  : list (string * TrackSingle.t) -> World ->
    list (string * TrackSingle.t) -> World -> Prop :=
| Broadcast_nil w : Broadcast method [] w [] w
| Broadcast_cons k tr tr' w w1 rest rest' w' :
    method tr w = (tr', w1) ->
    Broadcast method rest w1 rest' w' ->
    Broadcast method ((k, tr) :: rest) w ((k, tr') :: rest') w'.

(** A group method that hands [method] to every member, and returns. *)
Definition broadcasts (method : TrackSingle.t -> M TrackSingle.t)
    (groupMethod : TrackGroup.t -> M (Result unit * TrackGroup.t))
    (this : TrackGroup.t) (w : World) : Prop :=
  exists members w',
    groupMethod this w =
      (Ok tt, TrackGroup.set_tracks (JsObject.mk members None) this, w') /\
    Broadcast method (JsObject.own (TrackGroup.tracks this)) w members w'.

(** A group method that hands [method] to the primary track and to no other
    member: the world is the one a single run of [method] on the primary
    track leaves, the result is its result, and every other member is as
    before. *)
Definition delegates {A} (method : TrackSingle.t -> M (A * TrackSingle.t))
    (groupMethod : TrackGroup.t -> M (Result A * TrackGroup.t))
    (this : TrackGroup.t) (w : World) : Prop :=
  exists primary,
    TrackGroup.track (TrackGroup.name this) this = JsObject.Found primary /\
    fst (fst (groupMethod this w)) = Ok (fst (fst (method primary w))) /\
    snd (groupMethod this w) = snd (method primary w) /\
    TrackGroup.track (TrackGroup.name this) (snd (fst (groupMethod this w)))
      = JsObject.Found (snd (fst (method primary w))) /\
    JsObject.keys (TrackGroup.tracks (snd (fst (groupMethod this w))))
      = JsObject.keys (TrackGroup.tracks this) /\
    forall n, n <> TrackGroup.name this ->
      TrackGroup.track n (snd (fst (groupMethod this w)))
        = TrackGroup.track n this.

(** [new TrackGroup("grp", ctx, destination, source)], then
    [group.newTrack("drums", "drums.ogg")]. *)
Definition sampleGroup : TrackGroup.t * World :=
  TrackGroup.new "grp" 0%nat 0%nat sampleWorld.

Definition sampleGroup2 : Result TrackSingle.t * TrackGroup.t * World :=
  TrackGroup.newTrack "drums" (Some "drums.ogg") None
    (fst sampleGroup) (snd sampleGroup).

(** [group.newTrack("__proto__")] on the sample group, and once more. *)
Definition protoTrackOnce : Result TrackSingle.t * TrackGroup.t * World :=
  TrackGroup.newTrack "__proto__" None None (fst sampleGroup) (snd sampleGroup).

Definition protoTrackTwice : Result TrackSingle.t * TrackGroup.t * World :=
  TrackGroup.newTrack "__proto__" None None
    (snd (fst protoTrackOnce)) (snd protoTrackOnce).

(** [new TrackGroup("__proto__", ctx, destination, source)] *)
Definition protoGroup : TrackGroup.t * World :=
  TrackGroup.new "__proto__" 0%nat 0%nat sampleWorld.

(** [group.newTrack("2"); group.newTrack("1")] on the sample group. *)
Definition indexedGroup : Result TrackSingle.t * TrackGroup.t * World :=
  TrackGroup.newTrack "1" None None
    (snd (fst (TrackGroup.newTrack "2" None None
                 (fst sampleGroup) (snd sampleGroup))))
    (snd (TrackGroup.newTrack "2" None None
            (fst sampleGroup) (snd sampleGroup))).

(** [group.start()] after [group.newTrack("__proto__")], and on the group
    that is itself named [__proto__]. *)
Definition startOnProtoTrack : Result unit * TrackGroup.t * World :=
  TrackGroup.start sampleDefaults None None None
    (snd (fst protoTrackOnce)) (snd protoTrackOnce).

Definition startOnProtoGroup : Result unit * TrackGroup.t * World :=
  TrackGroup.start sampleDefaults None None None
    (fst protoGroup) (snd protoGroup).

(** ** Programs against the [Track] interface

    The methods of the interface [Track], as a caller issues them one after
    the other on one object. *)
Inductive Call :=
| CallStart (delay : option Q) (options : option AudioAdjustmentOptions)
            (duration : option Q)
| CallStop (delay : option Q) (options : option AudioAdjustmentOptions)
| CallPlaySource (path : string) (options : option AudioAdjustmentOptions)
| CallLoadSource (path : string)
| CallSwap (options : option SwapArgument)
| CallVolume (volume : Q) (options : option AudioAdjustmentOptions)
| CallLoop (enabled : bool) (startSample endSample : option Q)
| CallJump (enabled : bool) (fromSample toSample : option Q)
| CallCreateBeat (type : TrackBeatType) (origin : Q) (period : option Q)
| CallClearBeats
| CallSyncPlayTo (track : TrackRef) (options : option AudioAdjustmentOptions)
| CallSyncStopTo (track : TrackRef) (options : option AudioAdjustmentOptions)
| CallListenFor (type : TrackEventType) (callback : Callback).

(** A method whose result is not the track, the result being dropped. *)
Definition dropResult {A} (m : M (A * TrackSingle.t)) : M TrackSingle.t :=
  r <- m ;; ret (snd r).

(** One call on a [TrackSingle]. *)
Definition perform (defaults : Defaults) (c : Call) (this : TrackSingle.t)
    : M TrackSingle.t :=
  match c with
  | CallStart delay options duration =>
      TrackSingle.start defaults delay options duration this
  | CallStop delay options => TrackSingle.stop delay options this
  | CallPlaySource path options =>
      dropResult (TrackSingle.playSource defaults path options this)
  | CallLoadSource path => dropResult (TrackSingle.loadSource path this)
  | CallSwap options => TrackSingle.swap options this
  | CallVolume volume options => TrackSingle.volume volume options this
  | CallLoop enabled startSample endSample =>
      TrackSingle.loop enabled startSample endSample this
  | CallJump enabled fromSample toSample =>
      TrackSingle.jump enabled fromSample toSample this
  | CallCreateBeat type origin period =>
      dropResult (TrackSingle.createBeat type origin period this)
  | CallClearBeats => TrackSingle.clearBeats this
  | CallSyncPlayTo track options => TrackSingle.syncPlayTo track options this
  | CallSyncStopTo track options => TrackSingle.syncStopTo track options this
  | CallListenFor type callback => TrackSingle.listenFor type callback this
  end.

(** A run of calls on a [TrackSingle]. *)
Fixpoint performAll (defaults : Defaults) (cs : list Call)
    (this : TrackSingle.t) : M TrackSingle.t :=
  match cs with
  | [] => ret this
  | c :: cs' =>
      this' <- perform defaults c this ;; performAll defaults cs' this'
  end.

(** [new TrackSingle(name, ctx, destination, source)] and then a run of calls
    on it. *)
Definition trackProgram (defaults : Defaults) (name : string)
    (destination source : NodeId) (cs : list Call) : M TrackSingle.t :=
  this <- TrackSingle.new name destination source ;;
  performAll defaults cs this.

(** The calls that end in [start]: [start] itself and [playSource]. *)
Definition starting (c : Call) : bool :=
  match c with
  | CallStart _ _ _ | CallPlaySource _ _ => true
  | _ => false
  end.

Definition countStarting (cs : list Call) : nat :=
  length (filter starting cs).

(** Where a track is in its life: its source staged and never started; its
    source playing; its source playing with a clone of it staged for a swap. *)
Inductive Phase := Staged | Playing | Swapping.

Definition phase (this : TrackSingle.t) : option Phase :=
  match TrackSingle.loadedSource this, TrackSingle.playingSource this,
        TrackSingle.isLoadSourceCalled this with
  | Some l, None, false =>
      if Nat.eqb l (TrackSingle.source this) then Some Staged else None
  | None, Some p, false =>
      if Nat.eqb p (TrackSingle.source this) then Some Playing else None
  | Some _, Some p, true =>
      if Nat.eqb p (TrackSingle.source this) then Some Swapping else None
  | _, _, _ => None
  end.

(** The phase one more [start] leads to, and the one [n] of them lead to. *)
Definition nextPhase (ph : Phase) : Phase :=
  match ph with Staged => Playing | Playing | Swapping => Swapping end.

Definition advance (ph : Phase) (n : nat) : Phase := Nat.iter n nextPhase ph.

(** The playbacks and the clones behind a phase. *)
Definition playbacksOf (ph : Phase) : nat :=
  match ph with Staged => 0 | Playing | Swapping => 1 end.

Definition clonesOf (ph : Phase) : nat :=
  match ph with Staged | Playing => 0 | Swapping => 1 end.

(** How many times a source was cloned. *)
Fixpoint countClones (events : list AudioEvent) : nat :=
  match events with
  | [] => 0%nat
  | SourceClone _ _ :: events' => S (countClones events')
  | _ :: events' => countClones events'
  end.

(** What one call does to a track in phase [ph]: the phase moves on with a
    call that ends in [start] and stays otherwise, the fields set by the
    constructor stay, the clock and the warnings stay, and the graph gains
    the playback and the clone that the move of phase stands for. *)
Definition stepOf (defaults : Defaults) (c : Call) (this : TrackSingle.t)
    (w : World) (ph : Phase) : Prop :=
  let r := perform defaults c this w in
  let ph' := if starting c then nextPhase ph else ph in
  phase (fst r) = Some ph' /\
  TrackSingle.name (fst r) = TrackSingle.name this /\
  TrackSingle.destination (fst r) = TrackSingle.destination this /\
  TrackSingle.source (fst r) = TrackSingle.source this /\
  TrackSingle.gainNode (fst r) = TrackSingle.gainNode this /\
  currentTime (snd r) = currentTime w /\
  countWarnings (console (snd r)) = countWarnings (console w) /\
  map fst (scheduledStarts (graph (snd r))) =
    map fst (scheduledStarts (graph w)) ++
    repeat (TrackSingle.source this) (playbacksOf ph' - playbacksOf ph) /\
  countClones (graph (snd r)) =
    (countClones (graph w) + (clonesOf ph' - clonesOf ph))%nat.

(** ** Programs against a group *)

(** A group takes the calls of the interface and [newTrack]. *)
Inductive GroupCall :=
| OnGroup (c : Call)
| CallNewTrack (name : string) (path : option string) (source : option NodeId).

(** What a call threw, if it threw. *)
Definition thrown {A} (r : Result A) : option JsError :=
  match r with Ok _ => None | Throw e => Some e end.

(** A group method that cannot throw, and one that can. *)
Definition returns (m : M TrackGroup.t) : M (option JsError * TrackGroup.t) :=
  this' <- m ;; ret (None, this').

Definition mayThrow {A} (m : M (Result A * TrackGroup.t))
    : M (option JsError * TrackGroup.t) :=
  r <- m ;; ret (thrown (fst r), snd r).

(** One call on a [TrackGroup]. *)
Definition performOnGroup (defaults : Defaults) (c : GroupCall)
    (this : TrackGroup.t) : M (option JsError * TrackGroup.t) :=
  match c with
  | OnGroup (CallStart delay options duration) =>
      mayThrow (TrackGroup.start defaults delay options duration this)
  | OnGroup (CallStop delay options) =>
      mayThrow (TrackGroup.stop delay options this)
  | OnGroup (CallPlaySource path options) =>
      mayThrow (TrackGroup.playSource defaults path options this)
  | OnGroup (CallLoadSource path) => mayThrow (TrackGroup.loadSource path this)
  | OnGroup (CallSwap options) => mayThrow (TrackGroup.swap options this)
  | OnGroup (CallVolume volume options) =>
      returns (TrackGroup.volume volume options this)
  | OnGroup (CallLoop enabled startSample endSample) =>
      mayThrow (TrackGroup.loop enabled startSample endSample this)
  | OnGroup (CallJump enabled fromSample toSample) =>
      mayThrow (TrackGroup.jump enabled fromSample toSample this)
  | OnGroup (CallCreateBeat type origin period) =>
      mayThrow (TrackGroup.createBeat type origin period this)
  | OnGroup CallClearBeats => mayThrow (TrackGroup.clearBeats this)
  | OnGroup (CallSyncPlayTo track options) =>
      mayThrow (TrackGroup.syncPlayTo track options this)
  | OnGroup (CallSyncStopTo track options) =>
      mayThrow (TrackGroup.syncStopTo track options this)
  | OnGroup (CallListenFor type callback) =>
      mayThrow (TrackGroup.listenFor type callback this)
  | CallNewTrack name path source =>
      mayThrow (TrackGroup.newTrack name path source this)
  end.

(** A run of calls on a [TrackGroup], the caller catching what is thrown and
    going on; the errors come out in the order they were thrown. *)
Fixpoint performAllOnGroup (defaults : Defaults) (cs : list GroupCall)
    (this : TrackGroup.t) : M (list JsError * TrackGroup.t) :=
  match cs with
  | [] => ret ([], this)
  | c :: cs' =>
      r <- performOnGroup defaults c this ;;
      r' <- performAllOnGroup defaults cs' (snd r) ;;
      ret (match fst r with Some e => e :: fst r' | None => fst r' end, snd r')
  end.

Definition isNewTrack (c : GroupCall) : bool :=
  match c with CallNewTrack _ _ _ => true | OnGroup _ => false end.

(** The calls that assign a track to the name [__proto__]. *)
Definition namesProto (c : GroupCall) : bool :=
  match c with
  | CallNewTrack name _ _ => String.eqb name "__proto__"
  | OnGroup _ => false
  end.

(** What holds of every track of a group: it bears the name it was stored
    under, its gain node feeds the gain node of the group, and it is in one
    of the three phases. *)
Definition memberOf (this : TrackGroup.t) (entry : string * TrackSingle.t)
    : Prop :=
  TrackSingle.name (snd entry) = fst entry /\
  TrackSingle.destination (snd entry) = TrackGroup.gainNode this /\
  phase (snd entry) <> None.

(** That, of the own tracks and of a track that is the prototype. *)
Definition tracksInvariant (this : TrackGroup.t) : Prop :=
  Forall (memberOf this) (JsObject.own (TrackGroup.tracks this)) /\
  match JsObject.proto (TrackGroup.tracks this) with
  | Some p => memberOf this ("__proto__", p)
  | None => True
  end.

Definition groupInvariant (this : TrackGroup.t) : Prop :=
  wellFormed this /\
  Forall (memberOf this) (JsObject.own (TrackGroup.tracks this)).

(** [new TrackGroup(name, ctx, destination, source)] and then a run of calls
    on it. *)
Definition groupProgram (defaults : Defaults) (name : string)
    (destination source : NodeId) (cs : list GroupCall)
    : M (list JsError * TrackGroup.t) :=
  this <- TrackGroup.new name destination source ;;
  performAllOnGroup defaults cs this.

(** The fresh track after one [start()]. *)
Definition playingTrack : TrackSingle.t := fst freshStart.
Definition playingWorld : World := snd freshStart.

(** A program on the sample group: two new tracks, one of them refused, a
    start of the whole group and a call on the primary track. *)
Definition sampleProgram : list GroupCall :=
  [CallNewTrack "drums" (Some "drums.ogg") None;
   CallNewTrack "grp" None None;
   OnGroup (CallStart (Some 5) (Some delayTwo) None);
   OnGroup (CallLoadSource "a.ogg");
   OnGroup (CallStart None None (Some 3))].

(** The delays of the adjustments that were handed to [swap]. *)
Fixpoint swapDelays (entries : list ConsoleEntry) : list (option Q) :=
  match entries with
  | [] => []
  | LogSwap (Some (SimpleSwap o)) :: entries' =>
      Partial.delay (swap_adjustment o) :: swapDelays entries'
  | _ :: entries' => swapDelays entries'
  end.

(** [start(5, undefined, 3)] on the playing track. *)
Definition restartLater : TrackSingle.t * World :=
  TrackSingle.start sampleDefaults (Some 5) None (Some 3)
    playingTrack playingWorld.

(** * Proofs *)

(** Unfolding the methods of a track down to the world they leave. *)
Ltac run :=
  cbv [TrackSingle.start TrackSingle.implicitLoad TrackSingle.stopAfter
       TrackSingle.swap TrackSingle.stop TrackSingle.loadSource
       TrackSingle.playSource playSource_spec
       cloneSource newAudioSourceNode createGain freshNode emit log now
       bind ret TrackSingle.truthy andb fst snd].

Lemma effectiveDelay_nullish delay options :
  nullish (nullish_opt (options_delay options) delay) 0 = effectiveDelay delay options.
Proof.
  unfold effectiveDelay. destruct (options_delay options), delay; reflexivity.
Qed.

Lemma extends_intro w (events : list AudioEvent) (printed : list ConsoleEntry)
    allocated t n g c b :
  t = currentTime w -> n = (nextNode w + allocated)%nat ->
  g = (graph w ++ events)%list -> c = (console w ++ printed)%list -> b = beats w ->
  extends w events printed allocated
    {| currentTime := t; nextNode := n; graph := g; console := c; beats := b |}.
Proof. intros; subst; reflexivity. Qed.

Ltac close_extends :=
  apply extends_intro; cbn [currentTime nextNode graph console beats];
  rewrite <- ?app_assoc; cbn [app];
  rewrite ?app_nil_r; try reflexivity; try lia.

Ltac open_track this :=
  destruct this as [? ? ? ? ? ? ? ?];
  cbn [TrackSingle.name TrackSingle.destination TrackSingle.source
       TrackSingle.gainNode TrackSingle.gainValue TrackSingle.loadedSource
       TrackSingle.playingSource TrackSingle.isLoadSourceCalled] in *.

(** ** The four ways through [start] *)

Section StartCases.

Variable defaults : Defaults.
Variables (delay : option Q) (options : option AudioAdjustmentOptions)
          (duration : option Q).

Lemma start_swap_case this w l :
  TrackSingle.loadedSource this = Some l ->
  TrackSingle.isLoadSourceCalled this = true ->
  swapped defaults delay options duration this w
    (TrackSingle.start defaults delay options duration this w).
Proof.
  intros Hl Hf. open_track this. subst. run.
  rewrite effectiveDelay_nullish.
  destruct playingSource, duration; split; cbn [fst snd stopEntry];
    try reflexivity; close_extends.
Qed.

Lemma start_clone_case this w p :
  TrackSingle.playingSource this = Some p ->
  TrackSingle.loadedSource this = None ->
  clonedThenSwapped defaults delay options duration p this w
    (TrackSingle.start defaults delay options duration this w).
Proof.
  intros Hp Hl. open_track this. subst. run.
  rewrite effectiveDelay_nullish.
  destruct duration; split; cbn [fst snd stopEntry]; try reflexivity;
    close_extends.
Qed.

Lemma start_warn_case this w :
  TrackSingle.playingSource this = None ->
  TrackSingle.loadedSource this = None ->
  warned this w (TrackSingle.start defaults delay options duration this w).
Proof.
  intros Hp Hl. open_track this. subst. run.
  destruct isLoadSourceCalled; split; cbn [fst snd]; try reflexivity;
    close_extends.
Qed.

Lemma start_plain_case this w s :
  TrackSingle.loadedSource this = Some s ->
  TrackSingle.isLoadSourceCalled this = false ->
  exists startOptions,
    mergedStart defaults delay options startOptions /\
    plainStarted duration s startOptions this w
      (TrackSingle.start defaults delay options duration this w).
Proof.
  intros Hl Hf. open_track this. subst. run.
  exists (match delay, options_delay options with
          | Some d, None =>
              Required.add_delay d (buildOptions options (startImmediate defaults))
          | _, _ => buildOptions options (startImmediate defaults)
          end).
  destruct playingSource, delay as [d|], options as [[r [od|] du sd]|], duration.
  all: split; [unfold mergedStart; cbn; repeat split; reflexivity|].
  all: split; cbn; [reflexivity | close_extends].
Qed.

End StartCases.

(** ** Delays and the dispatch of [start] *)

Lemma mergedStart_effective defaults delay options startOptions :
  Required.delay (startImmediate defaults) == 0 ->
  mergedStart defaults delay options startOptions ->
  Required.delay startOptions == effectiveDelay delay options.
Proof.
  intros H0 (_ & _ & _ & Hd). rewrite Hd. unfold effectiveDelay.
  destruct (options_delay options), delay; rewrite ?H0; lra.
Qed.

Lemma stopsIssued_stopEntry d duration :
  stopsIssued (stopEntry d duration) =
  match duration with Some du => [Some (d + du)] | None => [] end.
Proof. destruct duration; reflexivity. Qed.

(** X12.  A playback that [start] itself schedules is at the clock time plus
    the effective delay, and the stop it issues for a duration is at the
    effective delay plus that duration, the effective delay being
    [options.delay] when present, else the positional delay, else 0: the two
    are never added up.  A track in its first start schedules exactly one
    playback; [start(5, {delay: 2})] schedules it at [now + 2] and not at
    [now + 7].  ([startImmediate], whose value is outside Track.ts, is taken
    with delay 0.) *)
Theorem start_delay_precedence defaults delay options duration this w :
  Required.delay (startImmediate defaults) == 0 ->
  exists events printed allocated,
    extends w events printed allocated
      (snd (TrackSingle.start defaults delay options duration this w)) /\
    Forall (fun sw => snd sw == currentTime w + effectiveDelay delay options)
           (scheduledStarts events) /\
    Forall (fun issued => exists d du,
              issued = Some d /\ duration = Some du /\
              d == effectiveDelay delay options + du)
           (stopsIssued printed) /\
    (forall s, TrackSingle.loadedSource this = Some s ->
               TrackSingle.isLoadSourceCalled this = false ->
               exists when, scheduledStarts events = [(s, when)]) /\
    (delay = Some 5 -> options_delay options = Some 2 ->
     Forall (fun sw => snd sw == currentTime w + 2 /\
                       ~ snd sw == currentTime w + 7)
            (scheduledStarts events)).
Proof.
  intros H0.
  assert (Hstops : forall d, d == effectiveDelay delay options ->
            Forall (fun issued => exists d' du,
                      issued = Some d' /\ duration = Some du /\
                      d' == effectiveDelay delay options + du)
                   (stopsIssued (stopEntry d duration))).
  { intros d Hd. rewrite stopsIssued_stopEntry. destruct duration as [du|];
      constructor; [|constructor].
    exists (d + du), du. repeat split; try reflexivity. rewrite Hd; reflexivity. }
  destruct (TrackSingle.loadedSource this) as [l|] eqn:Hl.
  - destruct (TrackSingle.isLoadSourceCalled this) eqn:Hf.
    + destruct (start_swap_case defaults delay options duration this w l Hl Hf)
        as [_ He].
      do 3 eexists. split; [exact He|]. cbn [scheduledStarts stopsIssued].
      repeat split; try constructor; try (apply Hstops; reflexivity).
      intros s _ Hc; discriminate.
    + destruct (start_plain_case defaults delay options duration this w l Hl Hf)
        as (so & Hm & _ & He).
      pose proof (mergedStart_effective _ _ _ _ H0 Hm) as Hd.
      do 3 eexists. split; [exact He|]. cbn [scheduledStarts snd].
      repeat split.
      * constructor; [|constructor]. cbn. rewrite Hd. reflexivity.
      * apply Hstops, Hd.
      * intros s Hs _. injection Hs as <-. eexists; reflexivity.
      * intros Hp Ho. constructor; [|constructor]. cbn.
        unfold effectiveDelay in Hd. rewrite Ho in Hd. rewrite Hd.
        split; [reflexivity|]. intros Hc. lra.
  - destruct (TrackSingle.playingSource this) as [p|] eqn:Hp.
    + destruct (start_clone_case defaults delay options duration this w p Hp Hl)
        as [_ He].
      do 3 eexists. split; [exact He|]. cbn [scheduledStarts stopsIssued].
      repeat split; try constructor; try (apply Hstops; reflexivity).
      intros s Hc; discriminate.
    + destruct (start_warn_case defaults delay options duration this w Hp Hl)
        as [_ He].
      do 3 eexists. split; [exact He|]. cbn [scheduledStarts stopsIssued].
      repeat split; try constructor. intros s Hc; discriminate.
Qed.

(** [start(5, {delay: 2})] on a fresh track, the clock reading 10. *)
Lemma start_delay_precedence_witness :
  exists events printed allocated,
    extends freshWorld events printed allocated
      (snd (TrackSingle.start sampleDefaults (Some 5) (Some delayTwo) None
              freshTrack freshWorld)) /\
    Forall (fun sw => snd sw == 10 + 2) (scheduledStarts events) /\
    scheduledStarts events = [(0%nat, 10 + 2)].
Proof.
  destruct (start_delay_precedence sampleDefaults (Some 5) (Some delayTwo) None
              freshTrack freshWorld) as (ev & pr & al & He & Hs & _ & _ & _).
  - reflexivity.
  - exists ev, pr, al. split; [exact He|]. split; [exact Hs|].
    unfold extends in He. apply (f_equal graph) in He. cbn in He.
    injection He as <-. reflexivity.
Defined.

(** C2, as stated, fails on a fresh track.  Its source is staged, yet [start]
    does not go to [swap]; nor does it clone or warn: the call is in none of
    the three cases. *)
Lemma start_three_cases_counterexample :
  TrackSingle.loadedSource freshTrack = Some 0%nat /\
  ~ threeCases sampleDefaults None None None freshTrack freshWorld freshStart /\
  ~ swapped sampleDefaults None None None freshTrack freshWorld freshStart /\
  ~ warned freshTrack freshWorld freshStart /\
  (forall p, ~ clonedThenSwapped sampleDefaults None None None p freshTrack
               freshWorld freshStart).
Proof.
  split; [reflexivity|].
  assert (Hfst : fst freshStart <> freshTrack) by (vm_compute; discriminate).
  repeat split.
  - intros [Hc _]. exact (Hfst Hc).
  - intros [Hc _]. exact (Hfst Hc).
  - intros [Hc _]. exact (Hfst Hc).
  - intros p [Hc _]. vm_compute in Hc. discriminate.
Qed.

(** C2, amended.  [start] dispatches among four cases: a playing source and no
    staged one, the playing source is cloned into the staged slot, the flag is
    set and the call goes on as a swap; a staged source with the flag set, the
    options merged with the swap defaults go to [swap] and a stop follows at
    the effective delay plus the duration; a staged source with the flag
    unset, the plain start; neither, a warning and nothing else. *)
Theorem start_four_cases defaults delay options duration this w :
  match TrackSingle.playingSource this, TrackSingle.loadedSource this,
        TrackSingle.isLoadSourceCalled this with
  | Some p, None, _ =>
      clonedThenSwapped defaults delay options duration p this w
        (TrackSingle.start defaults delay options duration this w)
  | _, Some _, true =>
      swapped defaults delay options duration this w
        (TrackSingle.start defaults delay options duration this w)
  | _, Some s, false =>
      exists startOptions,
        mergedStart defaults delay options startOptions /\
        plainStarted duration s startOptions this w
          (TrackSingle.start defaults delay options duration this w)
  | None, None, _ =>
      warned this w (TrackSingle.start defaults delay options duration this w)
  end.
Proof.
  destruct (TrackSingle.playingSource this) as [p|] eqn:Hp;
    destruct (TrackSingle.loadedSource this) as [l|] eqn:Hl;
    destruct (TrackSingle.isLoadSourceCalled this) eqn:Hf;
    eauto using start_swap_case, start_plain_case, start_clone_case,
                start_warn_case.
Qed.

(** C3.  The plain start of a staged source: disconnect, connect to the gain
    node, gain set to zero, playback at the clock time plus the effective
    delay, ramp back to the gain read before it was zeroed, under the merged
    adjustment; the source has moved from the staged to the playing slot. *)
Theorem plain_start_sequence defaults delay options duration this w s :
  Required.delay (startImmediate defaults) == 0 ->
  TrackSingle.loadedSource this = Some s ->
  TrackSingle.isLoadSourceCalled this = false ->
  exists startOptions this' w',
    TrackSingle.start defaults delay options duration this w = (this', w') /\
    graph w' =
      (graph w ++
       [SourceDisconnect s;
        SourceConnect s (TrackSingle.gainNode this);
        GainValueSet (TrackSingle.gainNode this) 0;
        SourceStart s (currentTime w + Required.delay startOptions);
        Automation (TrackSingle.gainNode this) (TrackSingle.gainValue this)
                   startOptions])%list /\
    TrackSingle.playingSource this' = Some s /\
    TrackSingle.loadedSource this' = None /\
    TrackSingle.gainValue this' = 0 /\
    TrackSingle.gainNode this' = TrackSingle.gainNode this /\
    Required.delay startOptions == effectiveDelay delay options /\
    Required.ramp startOptions =
      Required.ramp (buildOptions options (startImmediate defaults)) /\
    Required.duration startOptions =
      Required.duration (buildOptions options (startImmediate defaults)).
Proof.
  intros H0 Hl Hf.
  destruct (start_plain_case defaults delay options duration this w s Hl Hf)
    as (so & Hm & Ht & He).
  exists so. destruct (TrackSingle.start defaults delay options duration this w)
    as [this' w'] eqn:Hr.
  cbn [fst snd] in Ht, He. exists this', w'. split; [reflexivity|].
  subst this'. rewrite He. cbn [graph].
  pose proof (mergedStart_effective _ _ _ _ H0 Hm) as Hd.
  destruct Hm as (Hramp & Hdur & _ & _).
  repeat split; assumption.
Qed.

(** The plain start of the fresh track by [start(5, {delay: 2})]. *)
Lemma plain_start_sequence_witness :
  exists startOptions this' w',
    TrackSingle.start sampleDefaults (Some 5) (Some delayTwo) None
      freshTrack freshWorld = (this', w') /\
    graph w' =
      (graph freshWorld ++
       [SourceDisconnect 0%nat; SourceConnect 0%nat 1%nat;
        GainValueSet 1%nat 0;
        SourceStart 0%nat (10 + Required.delay startOptions);
        Automation 1%nat 1 startOptions])%list /\
    TrackSingle.playingSource this' = Some 0%nat /\
    TrackSingle.loadedSource this' = None /\
    Required.delay startOptions == 2.
Proof.
  destruct (plain_start_sequence sampleDefaults (Some 5) (Some delayTwo) None
              freshTrack freshWorld 0%nat)
    as (so & this' & w' & Hr & Hg & Hp & Hl & _ & _ & Hd & _).
  - reflexivity.
  - reflexivity.
  - reflexivity.
  - exists so, this', w'. repeat split; assumption.
Defined.

(** ** When [start] goes to [swap] *)

Lemma countSwaps_app a b :
  countSwaps (a ++ b) = (countSwaps a + countSwaps b)%nat.
Proof.
  induction a as [|[] a IH]; cbn; rewrite ?IH; reflexivity.
Qed.

Lemma countSwaps_stopEntry d duration : countSwaps (stopEntry d duration) = 0%nat.
Proof. destruct duration; reflexivity. Qed.

Lemma extends_console w events printed allocated w' :
  extends w events printed allocated w' ->
  console w' = (console w ++ printed)%list.
Proof. intros ->. reflexivity. Qed.

Lemma start_counts_swaps defaults delay options duration this w :
  countSwaps (console (snd (TrackSingle.start defaults delay options duration this w))) =
  (countSwaps (console w) + if swapGate this then 1 else 0)%nat.
Proof.
  unfold swapGate.
  destruct (TrackSingle.loadedSource this) as [l|] eqn:Hl;
    [destruct (TrackSingle.isLoadSourceCalled this) eqn:Hf
    |destruct (TrackSingle.playingSource this) as [p|] eqn:Hp];
    cbn [TrackSingle.truthy andb orb negb]; rewrite ?andb_false_r, ?orb_false_r.
  - destruct (start_swap_case defaults delay options duration this w l Hl Hf)
      as [_ H]. apply extends_console in H. rewrite H, countSwaps_app.
    cbn [countSwaps]. rewrite countSwaps_stopEntry. reflexivity.
  - destruct (start_plain_case defaults delay options duration this w l Hl Hf)
      as (so & _ & _ & H). apply extends_console in H.
    rewrite H, countSwaps_app, countSwaps_stopEntry. reflexivity.
  - destruct (start_clone_case defaults delay options duration this w p Hp Hl)
      as [_ H]. apply extends_console in H. rewrite H, countSwaps_app.
    cbn [countSwaps]. rewrite countSwaps_stopEntry.
    destruct (TrackSingle.isLoadSourceCalled this); reflexivity.
  - destruct (start_warn_case defaults delay options duration this w Hp Hl)
      as [_ H]. apply extends_console in H. rewrite H, countSwaps_app.
    destruct (TrackSingle.isLoadSourceCalled this); reflexivity.
Qed.

(** C10.  A track just constructed holds its source in the staged slot, with
    the flag unset and nothing playing; its first [start] is the plain start
    and enters [swap] not once.  In general [start] enters [swap] exactly when
    the flag is set with a source staged, or the implicit clone applies: a
    staged source alone does not suffice. *)
Theorem fresh_track_starts_plainly defaults name destination source
    delay options duration w :
  TrackSingle.loadedSource (fst (TrackSingle.new name destination source w))
    = Some source /\
  TrackSingle.isLoadSourceCalled (fst (TrackSingle.new name destination source w))
    = false /\
  TrackSingle.playingSource (fst (TrackSingle.new name destination source w))
    = None /\
  (exists startOptions,
     mergedStart defaults delay options startOptions /\
     plainStarted duration source startOptions
       (fst (TrackSingle.new name destination source w))
       (snd (TrackSingle.new name destination source w))
       (TrackSingle.start defaults delay options duration
          (fst (TrackSingle.new name destination source w))
          (snd (TrackSingle.new name destination source w)))) /\
  countSwaps (console (snd (TrackSingle.start defaults delay options duration
          (fst (TrackSingle.new name destination source w))
          (snd (TrackSingle.new name destination source w))))) =
    countSwaps (console w) /\
  (forall this w',
     countSwaps (console (snd (TrackSingle.start defaults delay options
                                 duration this w'))) =
     (countSwaps (console w') + if swapGate this then 1 else 0)%nat) /\
  (forall this s,
     TrackSingle.loadedSource this = Some s ->
     TrackSingle.isLoadSourceCalled this = false ->
     swapGate this = false).
Proof.
  repeat split; try reflexivity.
  - apply start_plain_case; reflexivity.
  - rewrite start_counts_swaps. cbn. lia.
  - intros; apply start_counts_swaps.
  - intros this s Hl Hf. unfold swapGate. rewrite Hl, Hf.
    cbn. apply andb_false_r.
Qed.

(** The gate is closed on the fresh track. *)
Lemma fresh_track_starts_plainly_witness :
  swapGate freshTrack = false.
Proof.
  destruct (fresh_track_starts_plainly sampleDefaults "bgm" 0%nat 0%nat
              None None None sampleWorld) as (_ & _ & _ & _ & _ & _ & H).
  apply (H freshTrack 0%nat); reflexivity.
Defined.

(** ** [playSource], [loadSource] and the beat stubs *)

Lemma start_frame defaults delay options duration this w :
  exists printed,
    forall c,
      TrackSingle.start defaults delay options duration this (withConsole c w) =
      (fst (TrackSingle.start defaults delay options duration this w),
       withConsole (c ++ printed)
         (snd (TrackSingle.start defaults delay options duration this w))).
Proof.
  open_track this.
  destruct playingSource, loadedSource, isLoadSourceCalled, delay as [d|],
    options as [[r [od|] du sd]|], duration.
  all: first
    [ solve [ eexists; intros c; run; cbn; unfold withConsole; cbn;
              rewrite <- ?app_assoc; cbn [app]; reflexivity ]
    | solve [ exists []; intros c; run; cbn; unfold withConsole; cbn;
              rewrite app_nil_r; reflexivity ] ].
Qed.

(** C4.  [playSource(path, options)] is [loadSource(path)] followed by
    [start(0, options)], run after its own line of output: same returned
    source, which is the one [loadSource] made, same track, same world but for
    that one line on the console. *)
Theorem playSource_is_loadSource_then_start defaults path options this w :
  TrackSingle.playSource defaults path options this w =
    playSource_spec defaults path options this
      (snd (log (LogPlaySource path options) w)) /\
  fst (TrackSingle.playSource defaults path options this w) =
    fst (playSource_spec defaults path options this w) /\
  fst (fst (TrackSingle.playSource defaults path options this w)) =
    fst (fst (TrackSingle.loadSource path this w)) /\
  exists printed,
    console (snd (playSource_spec defaults path options this w)) =
      (console w ++ printed)%list /\
    snd (TrackSingle.playSource defaults path options this w) =
      withConsole (console w ++ LogPlaySource path options :: printed)
        (snd (playSource_spec defaults path options this w)).
Proof.
  split; [reflexivity|].
  destruct w as [ct nn g c b].
  unfold TrackSingle.playSource, playSource_spec, TrackSingle.loadSource,
    newAudioSourceNode, freshNode, emit, log, bind, ret.
  cbn [fst snd currentTime nextNode graph console beats].
  set (w1 := {| currentTime := ct; nextNode := S nn;
                graph := g ++ [NewAudioSourceNode nn (TrackSingle.gainNode this)];
                console := []; beats := b |}).
  destruct (start_frame defaults (Some 0) options None this w1)
    as [printed Hframe].
  pose proof (Hframe ((c ++ [LogPlaySource path options])
                        ++ [LogLoadSource path])) as Ha.
  pose proof (Hframe (c ++ [LogLoadSource path])) as Hb.
  unfold withConsole at 1 in Ha. unfold withConsole at 1 in Hb.
  cbn [currentTime nextNode graph console beats w1] in Ha, Hb.
  rewrite Ha, Hb. cbn [fst snd].
  repeat split.
  exists (LogLoadSource path :: printed).
  unfold withConsole; cbn [currentTime nextNode graph console beats].
  rewrite <- !app_assoc. split; reflexivity.
Qed.

(** C5, on the code.  [loadSource] leaves the track as it was: on the fresh
    track the staged source is still the constructor's, not the node returned,
    the flag is unset, and the next [start] plays the constructor's source
    without going to [swap]. *)
Theorem loadSource_does_not_stage :
  (forall path this w, snd (fst (TrackSingle.loadSource path this w)) = this) /\
  fst (fst loadedOnFresh) = 2%nat /\
  TrackSingle.loadedSource (snd (fst loadedOnFresh)) = Some 0%nat /\
  TrackSingle.isLoadSourceCalled (snd (fst loadedOnFresh)) = false /\
  scheduledStarts
    (graph (snd (TrackSingle.start sampleDefaults None None None
                   (snd (fst loadedOnFresh)) (snd loadedOnFresh)))) =
    [(0%nat, 10 + 0)] /\
  countSwaps
    (console (snd (TrackSingle.start sampleDefaults None None None
                     (snd (fst loadedOnFresh)) (snd loadedOnFresh)))) = 0%nat.
Proof. repeat split. Qed.

Lemma nextOccurrence_sample : nextOccurrence 0 1 (5 # 2) 3.
Proof.
  exists 3%nat. repeat split.
  intros j Hj. unfold occurrence in Hj.
  destruct (le_lt_dec 3 j) as [H|H]; [exact H|exfalso].
  assert (Hz : (Z.of_nat j <= 2)%Z) by lia.
  assert (Hq : inject_Z (Z.of_nat j) <= 2).
  { change 2 with (inject_Z 2). rewrite <- Zle_Qle. exact Hz. }
  lra.
Qed.

(** C6, on the code.  The handle of [createBeat] carries time 0 whatever the
    rule.  For a repeating rule of origin 0 and period 1 created at clock time
    2.5 the next occurrence is 3; the time of the handle is 0, which is not
    the next occurrence. *)
Theorem createBeat_time_is_zero :
  nextOccurrence 0 1 (currentTime beatWorld) 3 /\
  (exists handle,
     nth_error (beats (snd repeatingBeat)) (fst (fst repeatingBeat)) =
       Some handle /\
     time handle == 0 /\
     ~ nextOccurrence 0 1 (currentTime beatWorld) (time handle)) /\
  (forall type origin period this w,
     nth_error (beats (snd (TrackSingle.createBeat type origin period this w)))
               (fst (fst (TrackSingle.createBeat type origin period this w))) =
     Some {| time := 0; isCancelled := false |}).
Proof.
  split; [exact nextOccurrence_sample|]. split.
  - eexists. split; [reflexivity|]. split; [reflexivity|].
    intros (k & _ & Hlt & _). cbn in Hlt. lra.
  - intros type origin period this w. cbn.
    rewrite nth_error_app2, Nat.sub_diag; [reflexivity | lia].
Qed.

(** C7, on the code.  Neither [cancel()] on the handle nor [clearBeats()] on
    the track writes to a beat: the handle's [isCancelled] is false after
    either. *)
Theorem cancel_and_clearBeats_do_nothing :
  option_map isCancelled
    (nth_error (beats (snd (TrackBeat_cancel (fst (fst repeatingBeat))
                              (snd repeatingBeat))))
               (fst (fst repeatingBeat))) = Some false /\
  option_map isCancelled
    (nth_error (beats (snd (TrackSingle.clearBeats (snd (fst repeatingBeat))
                              (snd repeatingBeat))))
               (fst (fst repeatingBeat))) = Some false /\
  (forall b w, beats (snd (TrackBeat_cancel b w)) = beats w) /\
  (forall this w, beats (snd (TrackSingle.clearBeats this w)) = beats w).
Proof. repeat split. Qed.


(** ** Runs of calls on a track *)

Lemma scheduledStarts_app a b :
  scheduledStarts (a ++ b) = scheduledStarts a ++ scheduledStarts b.
Proof.
  induction a as [|[] a IH]; cbn; rewrite ?IH; reflexivity.
Qed.

Lemma countClones_app a b :
  countClones (a ++ b) = (countClones a + countClones b)%nat.
Proof.
  induction a as [|[] a IH]; cbn; rewrite ?IH; reflexivity.
Qed.

Lemma countWarnings_app a b :
  countWarnings (a ++ b) = (countWarnings a + countWarnings b)%nat.
Proof.
  induction a as [|[] a IH]; cbn; rewrite ?IH; reflexivity.
Qed.

Lemma phase_inv this ph :
  phase this = Some ph ->
  match ph with
  | Staged =>
      TrackSingle.loadedSource this = Some (TrackSingle.source this) /\
      TrackSingle.playingSource this = None /\
      TrackSingle.isLoadSourceCalled this = false
  | Playing =>
      TrackSingle.loadedSource this = None /\
      TrackSingle.playingSource this = Some (TrackSingle.source this) /\
      TrackSingle.isLoadSourceCalled this = false
  | Swapping =>
      (exists c, TrackSingle.loadedSource this = Some c) /\
      TrackSingle.playingSource this = Some (TrackSingle.source this) /\
      TrackSingle.isLoadSourceCalled this = true
  end.
Proof.
  unfold phase.
  destruct (TrackSingle.loadedSource this) as [l|],
           (TrackSingle.playingSource this) as [p|],
           (TrackSingle.isLoadSourceCalled this); try discriminate.
  - destruct (Nat.eqb_spec p (TrackSingle.source this)); [|discriminate].
    intros [= <-]. subst. eauto.
  - destruct (Nat.eqb_spec l (TrackSingle.source this)); [|discriminate].
    intros [= <-]. subst. eauto.
  - destruct (Nat.eqb_spec p (TrackSingle.source this)); [|discriminate].
    intros [= <-]. subst. eauto.
Qed.

Ltac run_call :=
  cbv [perform dropResult TrackSingle.start TrackSingle.implicitLoad
       TrackSingle.stopAfter TrackSingle.swap TrackSingle.stop
       TrackSingle.loadSource TrackSingle.playSource TrackSingle.volume
       TrackSingle.loop TrackSingle.jump TrackSingle.createBeat
       TrackSingle.clearBeats TrackSingle.syncPlayTo TrackSingle.syncStopTo
       TrackSingle.listenFor newBeat
       cloneSource newAudioSourceNode createGain freshNode emit log now
       bind ret TrackSingle.truthy andb fst snd starting nextPhase
       playbacksOf clonesOf Nat.sub].

Lemma perform_step defaults c this w ph :
  phase this = Some ph -> stepOf defaults c this w ph.
Proof.
  intros Hph. apply phase_inv in Hph. unfold stepOf.
  destruct this as [n d s g gv lo pl fl].
  cbn [TrackSingle.name TrackSingle.destination TrackSingle.source
       TrackSingle.gainNode TrackSingle.gainValue TrackSingle.loadedSource
       TrackSingle.playingSource TrackSingle.isLoadSourceCalled] in Hph.
  destruct ph; [destruct Hph as (-> & -> & ->) | destruct Hph as (-> & -> & ->)
               | destruct Hph as ([c0 ->] & -> & ->)].
  all: destruct c;
    try match goal with d : option Q |- context [CallStart ?d _ _] => destruct d end;
    try match goal with o : option AudioAdjustmentOptions
                        |- context [CallStart _ ?o _] =>
          destruct o as [[? [ ? | ] ? ?] | ] end;
    try match goal with d : option Q |- context [CallStart _ _ ?d] => destruct d end;
    try match goal with o : option AudioAdjustmentOptions
                        |- context [CallPlaySource _ ?o] =>
          destruct o as [[? [ ? | ] ? ?] | ] end.
  all: run_call; cbn - [Nat.eqb];
    rewrite ?Nat.eqb_refl, ?scheduledStarts_app, ?countClones_app,
      ?countWarnings_app, ?map_app; cbn;
    rewrite ?app_nil_r, ?Nat.add_0_r, <- ?app_assoc; repeat split; try lia.
Qed.

Lemma advance_next ph n : advance ph (S n) = advance (nextPhase ph) n.
Proof. unfold advance. apply Nat.iter_succ_r. Qed.

Lemma playbacksOf_advance ph n :
  (playbacksOf ph <= playbacksOf (advance ph n))%nat.
Proof.
  revert ph. induction n as [|n IH]; intros ph; [apply Nat.le_refl|].
  rewrite advance_next. etransitivity; [|apply IH]. destruct ph; cbn; lia.
Qed.

Lemma clonesOf_advance ph n :
  (clonesOf ph <= clonesOf (advance ph n))%nat.
Proof.
  revert ph. induction n as [|n IH]; intros ph; [apply Nat.le_refl|].
  rewrite advance_next. etransitivity; [|apply IH]. destruct ph; cbn; lia.
Qed.

(** What a run of calls does to a track in a phase. *)
Lemma performAll_run defaults cs :
  forall this w ph,
    phase this = Some ph ->
    phase (fst (performAll defaults cs this w)) =
      Some (advance ph (countStarting cs)) /\
    TrackSingle.name (fst (performAll defaults cs this w)) =
      TrackSingle.name this /\
    TrackSingle.destination (fst (performAll defaults cs this w)) =
      TrackSingle.destination this /\
    TrackSingle.source (fst (performAll defaults cs this w)) =
      TrackSingle.source this /\
    TrackSingle.gainNode (fst (performAll defaults cs this w)) =
      TrackSingle.gainNode this /\
    currentTime (snd (performAll defaults cs this w)) = currentTime w /\
    countWarnings (console (snd (performAll defaults cs this w))) =
      countWarnings (console w) /\
    map fst (scheduledStarts (graph (snd (performAll defaults cs this w)))) =
      map fst (scheduledStarts (graph w)) ++
      repeat (TrackSingle.source this)
        (playbacksOf (advance ph (countStarting cs)) - playbacksOf ph) /\
    countClones (graph (snd (performAll defaults cs this w))) =
      (countClones (graph w) +
       (clonesOf (advance ph (countStarting cs)) - clonesOf ph))%nat.
Proof.
  induction cs as [|c cs IH]; intros this w ph Hph.
  - cbn. rewrite !Nat.sub_diag, app_nil_r, Nat.add_0_r. repeat split. exact Hph.
  - pose proof (perform_step defaults c this w ph Hph) as Hstep.
    unfold stepOf in Hstep. cbv zeta in Hstep.
    cbn [performAll]. unfold bind.
    destruct (perform defaults c this w) as [this1 w1].
    cbn [fst snd] in Hstep.
    destruct Hstep as (Hp1 & Hn & Hd & Hs & Hg & Ht & Hw & Hst & Hcl).
    destruct (IH this1 w1 _ Hp1)
      as (Hp2 & Hn2 & Hd2 & Hs2 & Hg2 & Ht2 & Hw2 & Hst2 & Hcl2).
    assert (Hadv : advance ph (countStarting (c :: cs)) =
                   advance (if starting c then nextPhase ph else ph)
                           (countStarting cs)).
    { unfold countStarting. cbn [filter]. destruct (starting c); [|reflexivity].
      cbn [length]. apply advance_next. }
    rewrite Hadv.
    set (ph1 := if starting c then nextPhase ph else ph) in *.
    assert (Hle1 : (playbacksOf ph <= playbacksOf ph1 /\
                    clonesOf ph <= clonesOf ph1)%nat).
    { unfold ph1. destruct (starting c), ph; cbn; lia. }
    pose proof (playbacksOf_advance ph1 (countStarting cs)) as Hle2.
    pose proof (clonesOf_advance ph1 (countStarting cs)) as Hle3.
    repeat split; try congruence.
    + rewrite Hst2, Hst, Hs, <- app_assoc, <- repeat_app. do 2 f_equal. lia.
    + rewrite Hcl2, Hcl. lia.
Qed.

Lemma new_phase name destination source w :
  phase (fst (TrackSingle.new name destination source w)) = Some Staged.
Proof. cbn. rewrite Nat.eqb_refl. reflexivity. Qed.

Lemma trackProgram_run defaults name destination source cs w :
  trackProgram defaults name destination source cs w =
  performAll defaults cs (fst (TrackSingle.new name destination source w))
    (snd (TrackSingle.new name destination source w)).
Proof. reflexivity. Qed.

Lemma advance_Swapping k : advance Swapping k = Swapping.
Proof.
  induction k as [|k IHk]; [reflexivity|]. rewrite advance_next. exact IHk.
Qed.

(** X1.  Whatever calls a track has received since its construction, its
    slots depend only on how many of them were [start] or [playSource]: none,
    the constructor's source is staged and nothing plays; one, that source
    plays and nothing is staged; two or more, that source plays, a clone is
    staged and the flag is set. *)
Theorem track_slots_follow_starts defaults name destination source cs w :
  match countStarting cs with
  | 0%nat =>
      TrackSingle.loadedSource
        (fst (trackProgram defaults name destination source cs w)) =
        Some source /\
      TrackSingle.playingSource
        (fst (trackProgram defaults name destination source cs w)) = None /\
      TrackSingle.isLoadSourceCalled
        (fst (trackProgram defaults name destination source cs w)) = false
  | 1%nat =>
      TrackSingle.loadedSource
        (fst (trackProgram defaults name destination source cs w)) = None /\
      TrackSingle.playingSource
        (fst (trackProgram defaults name destination source cs w)) =
        Some source /\
      TrackSingle.isLoadSourceCalled
        (fst (trackProgram defaults name destination source cs w)) = false
  | _ =>
      (exists clone,
         TrackSingle.loadedSource
           (fst (trackProgram defaults name destination source cs w)) =
           Some clone) /\
      TrackSingle.playingSource
        (fst (trackProgram defaults name destination source cs w)) =
        Some source /\
      TrackSingle.isLoadSourceCalled
        (fst (trackProgram defaults name destination source cs w)) = true
  end.
Proof.
  rewrite trackProgram_run.
  destruct (performAll_run defaults cs _
              (snd (TrackSingle.new name destination source w)) _
              (new_phase name destination source w))
    as (Hph & _ & _ & Hs & _).
  apply phase_inv in Hph. rewrite Hs in Hph.
  cbn [TrackSingle.source TrackSingle.new fst] in Hph.
  destruct (countStarting cs) as [|[|n]].
  - exact Hph.
  - exact Hph.
  - rewrite !advance_next in Hph. cbn [nextPhase] in Hph.
    rewrite advance_Swapping in Hph. exact Hph.
Qed.

(** X2.  On a track made by the constructor, no run of calls makes [start]
    warn: the branch without a source is never reached. *)
Theorem track_never_warns defaults name destination source cs w :
  countWarnings
    (console (snd (trackProgram defaults name destination source cs w))) =
  countWarnings (console w).
Proof.
  rewrite trackProgram_run.
  destruct (performAll_run defaults cs _
              (snd (TrackSingle.new name destination source w)) _
              (new_phase name destination source w))
    as (_ & _ & _ & _ & _ & _ & Hw & _).
  exact Hw.
Qed.

(** X3.  Over any run of calls on a track, playback is scheduled once at most
    (by the first call that ends in [start]) and only for the constructor's
    source, and a source is cloned once at most (by the second such call). *)
Theorem track_plays_and_clones_once defaults name destination source cs w :
  map fst (scheduledStarts
             (graph (snd (trackProgram defaults name destination source cs w)))) =
    map fst (scheduledStarts (graph w)) ++
    repeat source (Nat.min 1 (countStarting cs)) /\
  countClones
    (graph (snd (trackProgram defaults name destination source cs w))) =
    (countClones (graph w) + if (2 <=? countStarting cs)%nat then 1 else 0)%nat.
Proof.
  rewrite trackProgram_run.
  destruct (performAll_run defaults cs _
              (snd (TrackSingle.new name destination source w)) _
              (new_phase name destination source w))
    as (_ & _ & _ & _ & _ & _ & _ & Hst & Hcl).
  rewrite Hst, Hcl. clear Hst Hcl.
  assert (Hnew : graph (snd (TrackSingle.new name destination source w)) =
                 graph w ++ [CreateGain (nextNode w);
                             GainConnect (nextNode w) destination]).
  { cbn. rewrite <- app_assoc. reflexivity. }
  rewrite Hnew, scheduledStarts_app, countClones_app.
  cbn [scheduledStarts countClones TrackSingle.new TrackSingle.source fst
       playbacksOf clonesOf].
  unfold createGain, freshNode, emit, bind, ret. cbn [fst TrackSingle.source].
  rewrite !app_nil_r, !Nat.add_0_r, !Nat.sub_0_r.
  destruct (countStarting cs) as [|[|n]]; cbn [Nat.leb Nat.min]; split;
    try reflexivity.
  all: rewrite !advance_next; cbn [nextPhase]; rewrite advance_Swapping;
    reflexivity.
Qed.

Lemma swapDelays_app a b : swapDelays (a ++ b) = swapDelays a ++ swapDelays b.
Proof.
  induction a as [|e a IH]; [reflexivity|].
  destruct e; cbn [app swapDelays]; try exact IH.
  destruct options as [[o|o]|]; rewrite IH; reflexivity.
Qed.

Lemma stopsIssued_app a b : stopsIssued (a ++ b) = stopsIssued a ++ stopsIssued b.
Proof.
  induction a as [|e a IH]; [reflexivity|].
  destruct e; cbn [app stopsIssued]; rewrite IH; reflexivity.
Qed.

Lemma swapDelays_stopEntry d duration : swapDelays (stopEntry d duration) = [].
Proof. destruct duration; reflexivity. Qed.

Lemma swap_adjustment_delay defaults options :
  Partial.delay
    (swap_adjustment
       (asTrackSwapOptions
          (buildSwapOptions options (trackSwapDefault defaults)))) =
  Some (options_delay options ??
          Required.delay (rswap_adjustment (trackSwapDefault defaults))).
Proof. destruct options as [[? [ ? | ] ? ?] | ]; reflexivity. Qed.

(** C1.  When [start] goes to [swap], on a track that is playing or after a
    [loadSource], the positional delay does not reach the playback: the
    adjustment handed to [swap] has for delay [options.delay] when present
    and the delay of [trackSwapDefault] otherwise, whatever the positional
    delay is, and [start] itself schedules no playback.  The same call uses
    the positional delay for the [stop] of a duration, as the plain start
    does for the playback. *)
Theorem start_swap_path_drops_positional_delay defaults delay options duration
    this w :
  swapGate this = true ->
  swapDelays
    (console (snd (TrackSingle.start defaults delay options duration this w))) =
    swapDelays (console w) ++
    [Some (options_delay options ??
             Required.delay (rswap_adjustment (trackSwapDefault defaults)))] /\
  scheduledStarts
    (graph (snd (TrackSingle.start defaults delay options duration this w))) =
    scheduledStarts (graph w) /\
  stopsIssued
    (console (snd (TrackSingle.start defaults delay options duration this w))) =
    stopsIssued (console w) ++
    match duration with
    | Some du => [Some (effectiveDelay delay options + du)]
    | None => []
    end.
Proof.
  unfold swapGate. intros Hg.
  assert (Hrun : exists events,
    scheduledStarts events = [] /\
    extends w events
      (LogSwap (Some (SimpleSwap (asTrackSwapOptions
                  (buildSwapOptions options (trackSwapDefault defaults)))))
       :: stopEntry (effectiveDelay delay options) duration)
      (length events)
      (snd (TrackSingle.start defaults delay options duration this w))).
  { destruct (TrackSingle.loadedSource this) as [l|] eqn:Hl.
    - cbn in Hg. rewrite andb_true_r, andb_false_r, orb_false_r in Hg.
      destruct (start_swap_case defaults delay options duration this w l Hl Hg)
        as [_ He].
      exists []. split; [reflexivity | exact He].
    - destruct (TrackSingle.playingSource this) as [p|] eqn:Hp.
      + destruct (start_clone_case defaults delay options duration this w p
                    Hp Hl) as [_ He].
        exists [SourceClone p (nextNode w)]. split; [reflexivity | exact He].
      + cbn in Hg. rewrite andb_false_r in Hg. discriminate. }
  destruct Hrun as (events & Hev & He). unfold extends in He. rewrite He.
  cbn [console graph]. split; [|split].
  - rewrite swapDelays_app. cbn [swapDelays].
    rewrite swapDelays_stopEntry, swap_adjustment_delay. reflexivity.
  - rewrite scheduledStarts_app, Hev. apply app_nil_r.
  - rewrite stopsIssued_app. cbn [stopsIssued].
    rewrite stopsIssued_stopEntry. reflexivity.
Qed.

(** [start(5, undefined, 3)] on the playing track: [swap] is handed the delay
    0 of the swap defaults, the [stop] is issued at 5 + 3. *)
Lemma start_swap_path_drops_positional_delay_witness :
  swapDelays (console (snd restartLater)) = [Some 0] /\
  scheduledStarts (graph (snd restartLater)) =
    scheduledStarts (graph playingWorld) /\
  stopsIssued (console (snd restartLater)) = [Some (5 + 3)] /\
  ~ 0 == effectiveDelay (Some 5) None.
Proof.
  destruct (start_swap_path_drops_positional_delay sampleDefaults (Some 5) None
              (Some 3) playingTrack playingWorld eq_refl) as (Hs & Hg & Hst).
  split; [exact Hs|]. split; [exact Hg|]. split; [exact Hst|].
  discriminate.
Defined.

Lemma pair_eta {A B} (p q : A * B) : fst p = fst q -> snd p = snd q -> p = q.
Proof. destruct p, q; cbn; congruence. Qed.

(** X4.  When [start] goes to [swap] and no duration is given, the positional
    delay plays no part: two calls that differ in it only do the same. *)
Theorem swap_path_ignores_positional_delay defaults delay1 delay2 options
    this w :
  swapGate this = true ->
  TrackSingle.start defaults delay1 options None this w =
  TrackSingle.start defaults delay2 options None this w.
Proof.
  unfold swapGate. intros Hg.
  destruct (TrackSingle.loadedSource this) as [l|] eqn:Hl.
  - cbn in Hg. rewrite andb_true_r, andb_false_r, orb_false_r in Hg.
    destruct (start_swap_case defaults delay1 options None this w l Hl Hg)
      as [Hf1 He1].
    destruct (start_swap_case defaults delay2 options None this w l Hl Hg)
      as [Hf2 He2].
    apply pair_eta; [congruence|]. unfold extends in He1, He2.
    cbn [stopEntry] in He1, He2. congruence.
  - destruct (TrackSingle.playingSource this) as [p|] eqn:Hp.
    + destruct (start_clone_case defaults delay1 options None this w p Hp Hl)
        as [Hf1 He1].
      destruct (start_clone_case defaults delay2 options None this w p Hp Hl)
        as [Hf2 He2].
      apply pair_eta; [congruence|]. unfold extends in He1, He2.
      cbn [stopEntry] in He1, He2. congruence.
    + cbn in Hg. rewrite andb_false_r in Hg. discriminate.
Qed.

(** [start(5)] and [start()] on a playing track. *)
Lemma swap_path_ignores_positional_delay_witness :
  TrackSingle.start sampleDefaults (Some 5) None None playingTrack playingWorld =
  TrackSingle.start sampleDefaults None None None playingTrack playingWorld.
Proof.
  apply (swap_path_ignores_positional_delay sampleDefaults (Some 5) None None
           playingTrack playingWorld).
  reflexivity.
Defined.

(** X5.  On a track with a source, staged or playing, [start] with a duration
    is [start] without it followed by a [stop] at the effective delay plus
    the duration; on a track without any source no [stop] follows.
    ([startImmediate] is taken with delay 0.) *)
Theorem start_with_duration_is_start_then_stop defaults delay options du
    this w :
  Required.delay (startImmediate defaults) == 0 ->
  (TrackSingle.loadedSource this <> None \/
   TrackSingle.playingSource this <> None ->
   exists d,
     d == effectiveDelay delay options /\
     TrackSingle.start defaults delay options (Some du) this w =
     TrackSingle.stop (Some (d + du)) None
       (fst (TrackSingle.start defaults delay options None this w))
       (snd (TrackSingle.start defaults delay options None this w))) /\
  (TrackSingle.loadedSource this = None ->
   TrackSingle.playingSource this = None ->
   TrackSingle.start defaults delay options (Some du) this w =
   TrackSingle.start defaults delay options None this w).
Proof.
  intros H0. split.
  - intros Hsrc.
    destruct (TrackSingle.loadedSource this) as [l|] eqn:Hl;
      [destruct (TrackSingle.isLoadSourceCalled this) eqn:Hf
      |destruct (TrackSingle.playingSource this) as [p|] eqn:Hp].
    + exists (effectiveDelay delay options). split; [reflexivity|].
      destruct (start_swap_case defaults delay options (Some du) this w l Hl Hf)
        as [Hf1 He1].
      destruct (start_swap_case defaults delay options None this w l Hl Hf)
        as [Hf2 He2].
      apply pair_eta; [cbn; congruence|]. rewrite He1, He2, Hf2. cbn.
      rewrite <- app_assoc. reflexivity.
    + destruct (start_plain_case defaults delay options (Some du) this w l Hl Hf)
        as (so1 & Hm1 & Hf1 & He1).
      destruct (start_plain_case defaults delay options None this w l Hl Hf)
        as (so2 & Hm2 & Hf2 & He2).
      assert (Hso : so1 = so2).
      { unfold extends in He1, He2.
        apply (f_equal graph) in He1. apply (f_equal graph) in He2.
        revert He1 He2. open_track this. subst. run. cbn.
        destruct playingSource, delay, options as [[? [ ? | ] ? ?] | ];
          cbn -[Qplus]; rewrite <- ?app_assoc; cbn [app];
          intros He1 He2; apply app_inv_head in He1, He2;
          apply (f_equal (fun l => nth_error l 4)) in He1, He2;
          cbn [nth_error] in He1, He2; congruence. }
      subst so2. exists (Required.delay so1).
      split; [apply (mergedStart_effective _ _ _ _ H0 Hm1)|].
      apply pair_eta; [cbn; congruence|]. rewrite He1, He2. cbn.
      rewrite app_nil_r. reflexivity.
    + exists (effectiveDelay delay options). split; [reflexivity|].
      destruct (start_clone_case defaults delay options (Some du) this w p Hp Hl)
        as [Hf1 He1].
      destruct (start_clone_case defaults delay options None this w p Hp Hl)
        as [Hf2 He2].
      apply pair_eta; [cbn; congruence|]. rewrite He1, He2. cbn.
      rewrite <- app_assoc. reflexivity.
    + destruct Hsrc as [H|H]; contradiction.
  - intros Hl Hp.
    destruct (start_warn_case defaults delay options (Some du) this w Hp Hl)
      as [Hf1 He1].
    destruct (start_warn_case defaults delay options None this w Hp Hl)
      as [Hf2 He2].
    apply pair_eta; congruence.
Qed.

(** [start(5, {delay: 2}, 3)] on the fresh track. *)
Lemma start_with_duration_is_start_then_stop_witness :
  exists d,
    d == 2 /\
    TrackSingle.start sampleDefaults (Some 5) (Some delayTwo) (Some 3)
      freshTrack freshWorld =
    TrackSingle.stop (Some (d + 3)) None
      (fst (TrackSingle.start sampleDefaults (Some 5) (Some delayTwo) None
              freshTrack freshWorld))
      (snd (TrackSingle.start sampleDefaults (Some 5) (Some delayTwo) None
              freshTrack freshWorld)).
Proof.
  destruct (start_with_duration_is_start_then_stop sampleDefaults (Some 5)
              (Some delayTwo) 3 freshTrack freshWorld) as [H _].
  - reflexivity.
  - apply H. left. discriminate.
Defined.

(** ** Facts about objects used as maps *)

Section JsObjectFacts.
Context {V : Type}.
Implicit Types (l d : list (string * V)) (k : string) (v : V).

Lemma includes_In k (ks : list string) :
  JsObject.includes k ks = true <-> In k ks.
Proof.
  unfold JsObject.includes. rewrite existsb_exists. split.
  - intros (x & Hx & He). apply String.eqb_eq in He. subst. exact Hx.
  - intros H. exists k. split; [exact H | apply String.eqb_refl].
Qed.

Lemma lookup_notin k l : ~ In k (map fst l) -> JsObject.lookup k l = None.
Proof.
  induction l as [|[k' v'] l IH]; cbn; [reflexivity|].
  intros H. destruct (String.eqb_spec k k') as [->|Hne].
  - exfalso. apply H. left. reflexivity.
  - apply IH. intros Hin. apply H. right. exact Hin.
Qed.

Lemma lookup_In k v l : JsObject.lookup k l = Some v -> In k (map fst l).
Proof.
  induction l as [|[k' v'] l IH]; cbn; [discriminate|].
  destruct (String.eqb_spec k k') as [->|Hne]; [left; reflexivity|].
  intros H. right. apply IH, H.
Qed.

Lemma In_lookup k l : In k (map fst l) -> JsObject.lookup k l <> None.
Proof.
  intros Hin Hnone. destruct (JsObject.lookup k l) eqn:H; [discriminate|].
  clear Hnone. induction l as [|[k' v'] l IH]; cbn in *; [contradiction|].
  destruct (String.eqb_spec k k') as [->|Hne]; [discriminate|].
  destruct Hin as [Hin|Hin]; [congruence | exact (IH Hin H)].
Qed.

Lemma lookup_Forall (P : string * V -> Prop) k v l :
  JsObject.lookup k l = Some v -> Forall P l -> P (k, v).
Proof.
  intros Hl Hall. induction Hall as [|[k' v'] l Hx Hall IH]; cbn in Hl;
    [discriminate|].
  destruct (String.eqb_spec k k') as [->|Hne].
  - injection Hl as <-. exact Hx.
  - apply IH, Hl.
Qed.

Lemma lookup_app_notin k d l :
  ~ In k (map fst d) -> JsObject.lookup k (d ++ l) = JsObject.lookup k l.
Proof.
  induction d as [|[k' v'] d IH]; cbn; [reflexivity|].
  intros H. destruct (String.eqb_spec k k') as [->|Hne].
  - exfalso. apply H. left. reflexivity.
  - apply IH. intros Hin. apply H. right. exact Hin.
Qed.

Lemma replace_app_notin k v d l :
  ~ In k (map fst d) ->
  JsObject.replace k v (d ++ l) = d ++ JsObject.replace k v l.
Proof.
  induction d as [|[k' v'] d IH]; cbn; [reflexivity|].
  intros H. destruct (String.eqb_spec k k') as [->|Hne].
  - exfalso. apply H. left. reflexivity.
  - rewrite IH; [reflexivity|]. intros Hin. apply H. right. exact Hin.
Qed.

Lemma replace_keys k v l : map fst (JsObject.replace k v l) = map fst l.
Proof.
  induction l as [|[k' v'] l IH]; cbn; [reflexivity|].
  destruct (String.eqb k k'); cbn; [reflexivity | f_equal; exact IH].
Qed.

Lemma lookup_replace_same k v l :
  In k (map fst l) -> JsObject.lookup k (JsObject.replace k v l) = Some v.
Proof.
  induction l as [|[k' v'] l IH]; cbn; [contradiction|].
  intros Hin. destruct (String.eqb_spec k k') as [->|Hne]; cbn.
  - rewrite String.eqb_refl. reflexivity.
  - destruct (String.eqb_spec k k'); [contradiction|].
    apply IH. destruct Hin as [Hin|Hin]; [congruence | exact Hin].
Qed.

Lemma lookup_replace_other k n v l :
  n <> k -> JsObject.lookup n (JsObject.replace k v l) = JsObject.lookup n l.
Proof.
  intros Hne. induction l as [|[k' v'] l IH]; cbn; [reflexivity|].
  destruct (String.eqb_spec k k') as [->|Hk]; cbn.
  - destruct (String.eqb_spec n k'); [contradiction | reflexivity].
  - rewrite IH. reflexivity.
Qed.

Lemma Forall_replace (P : string * V -> Prop) k v l :
  Forall P l -> P (k, v) -> Forall P (JsObject.replace k v l).
Proof.
  intros Hall Hv. induction Hall as [|[k' v'] l Hx Hall IH]; cbn;
    [constructor|].
  destruct (String.eqb_spec k k') as [->|Hne]; constructor; assumption.
Qed.

(** A key that is not there goes in somewhere, the rest staying in order. *)
Lemma define_new k v l :
  JsObject.lookup k l = None ->
  exists l1 l2, l = l1 ++ l2 /\ JsObject.define k v l = l1 ++ (k, v) :: l2.
Proof.
  intros Hl. unfold JsObject.define. rewrite Hl.
  destruct (arrayIndex k) as [n|].
  - clear Hl. induction l as [|[k' v'] l IH]; cbn.
    + exists [], []. split; reflexivity.
    + destruct (arrayIndex k') as [n'|].
      * destruct (N.ltb n' n).
        -- destruct IH as (l1 & l2 & -> & ->).
           exists ((k', v') :: l1), l2. split; reflexivity.
        -- exists [], ((k', v') :: l). split; reflexivity.
      * exists [], ((k', v') :: l). split; reflexivity.
  - exists l, []. rewrite app_nil_r. split; reflexivity.
Qed.

Lemma define_old k v v0 l :
  JsObject.lookup k l = Some v0 ->
  JsObject.define k v l = JsObject.replace k v l.
Proof. intros Hl. unfold JsObject.define. rewrite Hl. reflexivity. Qed.


Lemma define_NoDup k v l :
  NoDup (map fst l) -> NoDup (map fst (JsObject.define k v l)).
Proof.
  intros Hnd. destruct (JsObject.lookup k l) as [v0|] eqn:Hl.
  - rewrite (define_old k v v0 l Hl), replace_keys. exact Hnd.
  - assert (Hnin : ~ In k (map fst l)).
    { intros Hin. exact (In_lookup k l Hin Hl). }
    destruct (define_new k v l Hl) as (l1 & l2 & -> & ->).
    rewrite map_app in *. cbn.
    apply (Permutation_NoDup (Permutation_middle _ _ _)).
    constructor; assumption.
Qed.

Lemma lookup_define_same k v l :
  JsObject.lookup k (JsObject.define k v l) = Some v.
Proof.
  destruct (JsObject.lookup k l) as [v0|] eqn:Hl.
  - rewrite (define_old k v v0 l Hl). apply lookup_replace_same.
    eapply lookup_In, Hl.
  - destruct (define_new k v l Hl) as (l1 & l2 & -> & ->).
    assert (Hnin : ~ In k (map fst l1)).
    { intros Hin. refine (In_lookup k _ _ Hl). rewrite map_app.
      apply in_or_app. left. exact Hin. }
    rewrite lookup_app_notin by exact Hnin. cbn.
    rewrite String.eqb_refl. reflexivity.
Qed.

Lemma lookup_middle_other k n v l1 l2 :
  n <> k ->
  JsObject.lookup n (l1 ++ (k, v) :: l2) = JsObject.lookup n (l1 ++ l2).
Proof.
  intros Hne. induction l1 as [|[k' v'] l1 IH]; cbn.
  - destruct (String.eqb_spec n k); [contradiction | reflexivity].
  - destruct (String.eqb n k'); [reflexivity | exact IH].
Qed.

Lemma lookup_define_other k n v l :
  n <> k -> JsObject.lookup n (JsObject.define k v l) = JsObject.lookup n l.
Proof.
  intros Hne. destruct (JsObject.lookup k l) as [v0|] eqn:Hl.
  - rewrite (define_old k v v0 l Hl). apply lookup_replace_other, Hne.
  - destruct (define_new k v l Hl) as (l1 & l2 & -> & ->).
    apply lookup_middle_other, Hne.
Qed.

Lemma Forall_define (P : string * V -> Prop) k v l :
  Forall P l -> P (k, v) -> Forall P (JsObject.define k v l).
Proof.
  intros Hall Hv. destruct (JsObject.lookup k l) as [v0|] eqn:Hl.
  - rewrite (define_old k v v0 l Hl). apply Forall_replace; assumption.
  - destruct (define_new k v l Hl) as (l1 & l2 & -> & ->).
    apply Forall_app in Hall. destruct Hall as [H1 H2].
    apply Forall_app. split; [exact H1 | constructor; assumption].
Qed.

Lemma define_length k v l :
  JsObject.lookup k l = None ->
  length (JsObject.define k v l) = S (length l).
Proof.
  intros Hl. destruct (define_new k v l Hl) as (l1 & l2 & -> & ->).
  rewrite !length_app. cbn. lia.
Qed.

End JsObjectFacts.

(** ** Groups *)

Lemma forOwn_members method rest :
  forall done this w,
    JsObject.own (TrackGroup.tracks this) = done ++ rest ->
    NoDup (map fst (done ++ rest)) ->
    exists rest' w',
      TrackGroup.forOwn method (map fst rest) this w =
        (TrackGroup.set_tracks
           (JsObject.mk (done ++ rest')
                        (JsObject.proto (TrackGroup.tracks this))) this, w') /\
      Broadcast method rest w rest' w'.
Proof.
  induction rest as [|[k tr] rest IH]; intros done this w Ht Hnd.
  - exists [], w. split; [|constructor].
    cbn. unfold ret. rewrite <- Ht.
    destruct this as [n d s g [o p]]; reflexivity.
  - assert (Hk : ~ In k (map fst done)).
    { rewrite map_app in Hnd. cbn in Hnd.
      apply NoDup_remove_2 in Hnd. intros Hin. apply Hnd.
      apply in_or_app. left. exact Hin. }
    cbn [map fst TrackGroup.forOwn]. unfold bind.
    rewrite Ht, (lookup_app_notin k done _ Hk). cbn [JsObject.lookup].
    rewrite String.eqb_refl.
    destruct (method tr w) as [tr' w1] eqn:Hm. unfold ret.
    rewrite (replace_app_notin k tr' done _ Hk). cbn [JsObject.replace].
    rewrite String.eqb_refl.
    destruct (IH (done ++ [(k, tr')])
                 (TrackGroup.set_tracks
                    (JsObject.mk (done ++ (k, tr') :: rest)
                       (JsObject.proto (TrackGroup.tracks this))) this) w1)
      as (rest' & w' & Hrun & Hb).
    + cbn. rewrite <- app_assoc. reflexivity.
    + rewrite <- app_assoc. cbn. rewrite map_app in *. exact Hnd.
    + exists ((k, tr') :: rest'), w'. split; [|econstructor; eassumption].
      rewrite Hrun. cbn. rewrite <- app_assoc. reflexivity.
Qed.

Lemma forIn_broadcasts method onSource this w :
  wellFormed this ->
  broadcasts method (TrackGroup.forIn method onSource) this w.
Proof.
  intros (Hnd & _ & Hproto).
  destruct (forOwn_members method (JsObject.own (TrackGroup.tracks this)) []
              this w eq_refl Hnd) as (members & w' & Hrun & Hb).
  exists members, w'. split; [|exact Hb].
  unfold TrackGroup.forIn, bind, JsObject.keys. rewrite Hrun, Hproto.
  reflexivity.
Qed.

Lemma onPrimary_delegates {A} (method : TrackSingle.t -> M (A * TrackSingle.t))
    this w :
  wellFormed this ->
  delegates method (TrackGroup.onPrimary method) this w.
Proof.
  intros (_ & Hp & _).
  destruct (JsObject.lookup (TrackGroup.name this)
              (JsObject.own (TrackGroup.tracks this))) as [p|] eqn:Hget;
    [|contradiction].
  pose proof (lookup_In _ _ _ Hget) as Hin.
  exists p. unfold TrackGroup.track, TrackGroup.onPrimary,
    TrackGroup.primaryTrack, JsObject.get, JsObject.mutate, bind, ret.
  rewrite Hget. destruct (method p w) as [[a p'] w'].
  cbn [fst snd TrackGroup.tracks TrackGroup.set_tracks TrackGroup.name
       JsObject.own JsObject.proto JsObject.keys].
  repeat split.
  - rewrite lookup_replace_same by exact Hin. reflexivity.
  - apply replace_keys.
  - intros n Hn. rewrite lookup_replace_other by exact Hn. reflexivity.
Qed.

Lemma Broadcast_printing e members :
  forall w members' w',
    Broadcast (fun tr => log e ;;; ret tr)%world members w members' w' ->
    members' = members /\
    w' = withConsole (console w ++ repeat e (length members)) w.
Proof.
  induction members as [|[k tr] members IH]; intros w members' w' Hb;
    inversion Hb; subst.
  - split; [reflexivity|]. cbn. rewrite app_nil_r. destruct w'; reflexivity.
  - match goal with H : _ = (_, _) |- _ => injection H as <- <- end.
    match goal with H : Broadcast _ _ _ _ _ |- _ =>
      destruct (IH _ _ _ H) as [-> ->] end.
    split; [reflexivity|]. unfold withConsole. cbn.
    rewrite <- app_assoc. reflexivity.
Qed.

Lemma new_wellFormed name destination source w :
  name <> "__proto__" ->
  wellFormed (fst (TrackGroup.new name destination source w)).
Proof.
  intros Hne. unfold wellFormed. cbn -[JsObject.set JsObject.keys].
  unfold JsObject.set, JsObject.keys.
  destruct (String.eqb_spec name "__proto__"); [contradiction|].
  cbn [JsObject.own JsObject.proto]. repeat split.
  - apply define_NoDup. constructor.
  - rewrite lookup_define_same. discriminate.
Qed.

(** X14.  On a group that has its tracks as own properties only, each name
    once and the primary track among them: [start], [stop], [clearBeats],
    [syncPlayTo] and [syncStopTo] run the method of the same name once on
    every track, in the order of the keys, and throw nothing; [swap],
    [loadSource], [playSource], [createBeat] and [listenFor] run it on the
    primary track and leave every other track as it was. *)
Theorem group_broadcasts_and_delegates defaults this w
    delay options duration track swapOptions path type origin period
    eventType callback :
  wellFormed this ->
  broadcasts (TrackSingle.start defaults delay options duration)
             (TrackGroup.start defaults delay options duration) this w /\
  broadcasts (TrackSingle.stop delay options)
             (TrackGroup.stop delay options) this w /\
  broadcasts TrackSingle.clearBeats TrackGroup.clearBeats this w /\
  broadcasts (TrackSingle.syncPlayTo track options)
             (TrackGroup.syncPlayTo track options) this w /\
  broadcasts (TrackSingle.syncStopTo track options)
             (TrackGroup.syncStopTo track options) this w /\
  delegates (TrackGroup.returningTrack (TrackSingle.swap swapOptions))
            (TrackGroup.swap swapOptions) this w /\
  delegates (TrackSingle.loadSource path)
            (TrackGroup.loadSource path) this w /\
  delegates (TrackSingle.playSource defaults path options)
            (TrackGroup.playSource defaults path options) this w /\
  delegates (TrackSingle.createBeat type origin period)
            (TrackGroup.createBeat type origin period) this w /\
  delegates (TrackGroup.returningTrack (TrackSingle.listenFor eventType callback))
            (TrackGroup.listenFor eventType callback) this w /\
  snd (TrackGroup.stop delay options this w) =
    withConsole (console w ++ repeat (LogStop delay options)
                   (length (JsObject.own (TrackGroup.tracks this)))) w /\
  snd (TrackGroup.clearBeats this w) =
    withConsole (console w ++ repeat LogClearBeats
                   (length (JsObject.own (TrackGroup.tracks this)))) w /\
  snd (TrackGroup.swap swapOptions this w) =
    withConsole (console w ++ [LogSwap swapOptions]) w.
Proof.
  intros Hwf.
  repeat match goal with
         | |- broadcasts _ _ _ _ /\ _ => split; [apply forIn_broadcasts, Hwf|]
         | |- delegates _ _ _ _ /\ _ => split; [apply onPrimary_delegates, Hwf|]
         end.
  split; [|split].
  - destruct (forIn_broadcasts (TrackSingle.stop delay options)
                TrackGroup.noSuchMethod this w Hwf)
      as (members & w' & Hrun & Hb).
    unfold TrackGroup.stop. rewrite Hrun.
    apply Broadcast_printing in Hb. apply Hb.
  - destruct (forIn_broadcasts TrackSingle.clearBeats
                TrackGroup.noSuchMethod this w Hwf)
      as (members & w' & Hrun & Hb).
    unfold TrackGroup.clearBeats. rewrite Hrun.
    apply Broadcast_printing in Hb. apply Hb.
  - destruct (onPrimary_delegates
                (TrackGroup.returningTrack (TrackSingle.swap swapOptions))
                this w Hwf) as (p & _ & _ & Hw & _).
    unfold TrackGroup.swap. rewrite Hw. reflexivity.
Qed.

(** The sample group of two tracks. *)
Lemma group_broadcasts_and_delegates_witness :
  broadcasts (TrackSingle.start sampleDefaults None None None)
             (TrackGroup.start sampleDefaults None None None)
             (snd (fst sampleGroup2)) (snd sampleGroup2) /\
  delegates (TrackSingle.loadSource "a.ogg") (TrackGroup.loadSource "a.ogg")
            (snd (fst sampleGroup2)) (snd sampleGroup2) /\
  JsObject.keys (TrackGroup.tracks (snd (fst sampleGroup2))) = ["grp"; "drums"].
Proof.
  destruct (group_broadcasts_and_delegates sampleDefaults
              (snd (fst sampleGroup2)) (snd sampleGroup2)
              None None None "grp" None "a.ogg" REPEATING 0 None BEAT 0%nat)
    as (Hstart & _ & _ & _ & _ & _ & Hload & _).
  - repeat split.
    + cbn. repeat constructor; cbn; intuition discriminate.
    + discriminate.
  - repeat split; assumption.
Defined.



(** ** Runs of calls on a group *)

Lemma memberOf_gain this this' entry :
  TrackGroup.gainNode this' = TrackGroup.gainNode this ->
  memberOf this entry -> memberOf this' entry.
Proof. unfold memberOf. intros ->. exact (fun H => H). Qed.

(** A member method that keeps what holds of a member and of the world keeps
    it through the own keys, whatever keys are gone through. *)
Lemma forOwn_preserves (P : string * TrackSingle.t -> Prop)
    (R : World -> Prop) method :
  (forall k tr w, P (k, tr) -> R w ->
     P (k, fst (method tr w)) /\ R (snd (method tr w))) ->
  forall ks this w,
    Forall P (JsObject.own (TrackGroup.tracks this)) -> R w ->
    Forall P (JsObject.own
                (TrackGroup.tracks (fst (TrackGroup.forOwn method ks this w)))) /\
    R (snd (TrackGroup.forOwn method ks this w)) /\
    JsObject.keys (TrackGroup.tracks (fst (TrackGroup.forOwn method ks this w)))
      = JsObject.keys (TrackGroup.tracks this) /\
    JsObject.proto (TrackGroup.tracks (fst (TrackGroup.forOwn method ks this w)))
      = JsObject.proto (TrackGroup.tracks this) /\
    TrackGroup.name (fst (TrackGroup.forOwn method ks this w))
      = TrackGroup.name this /\
    TrackGroup.gainNode (fst (TrackGroup.forOwn method ks this w))
      = TrackGroup.gainNode this.
Proof.
  intros Hstep. induction ks as [|k ks IH]; intros this w HP HR.
  - cbn. repeat split; assumption.
  - cbn [TrackGroup.forOwn]. unfold bind.
    destruct (JsObject.lookup k (JsObject.own (TrackGroup.tracks this)))
      as [tr|] eqn:Hl.
    + destruct (Hstep k tr w (lookup_Forall P k tr _ Hl HP) HR) as [HP' HR'].
      destruct (method tr w) as [tr' w1]. unfold ret. cbn [fst snd] in *.
      destruct (IH (TrackGroup.set_tracks
                      (JsObject.mk
                         (JsObject.replace k tr'
                            (JsObject.own (TrackGroup.tracks this)))
                         (JsObject.proto (TrackGroup.tracks this))) this) w1)
        as (H1 & H2 & H3 & H4 & H5 & H6).
      * cbn. apply Forall_replace; assumption.
      * exact HR'.
      * repeat split; try assumption.
        rewrite H3. unfold JsObject.keys. cbn. apply replace_keys.
    + unfold ret. apply IH; assumption.
Qed.

Lemma forInherited_preserves (R : World -> Prop) onSource :
  (forall s w, R w -> R (snd (onSource s w))) ->
  forall fields seen w,
    R w -> R (snd (TrackGroup.forInherited onSource fields seen w)).
Proof.
  intros Hs. induction fields as [|[k value] fields IH]; intros seen w HR.
  - exact HR.
  - cbn [TrackGroup.forInherited].
    destruct (JsObject.includes k seen); [apply IH, HR|].
    destruct value as [s| |]; [|apply IH, HR|exact HR].
    unfold bind. pose proof (Hs s w HR) as HR'.
    destruct (onSource s w) as [[[]|e] w1]; [apply IH, HR'|exact HR'].
Qed.

Lemma wellFormed_same this this' :
  JsObject.keys (TrackGroup.tracks this') = JsObject.keys (TrackGroup.tracks this) ->
  JsObject.proto (TrackGroup.tracks this') = JsObject.proto (TrackGroup.tracks this) ->
  TrackGroup.name this' = TrackGroup.name this ->
  wellFormed this -> wellFormed this'.
Proof.
  intros Hk Hp Hn (Hnd & Hl & Hpr). unfold wellFormed.
  rewrite Hk, Hp, Hn. repeat split; try assumption.
  apply In_lookup. unfold JsObject.keys in Hk. rewrite Hk.
  destruct (JsObject.lookup (TrackGroup.name this)
              (JsObject.own (TrackGroup.tracks this))) eqn:Hget;
    [|contradiction].
  eapply lookup_In, Hget.
Qed.

Lemma keys_length (o1 o2 : JsObject.t TrackSingle.t) :
  JsObject.keys o1 = JsObject.keys o2 ->
  length (JsObject.own o1) = length (JsObject.own o2).
Proof.
  unfold JsObject.keys. intros H.
  rewrite <- (length_map fst (JsObject.own o1)), H. apply length_map.
Qed.

Section GroupSteps.

Variable defaults : Defaults.

Lemma member_step this c k tr w n :
  memberOf this (k, tr) ->
  countWarnings (console w) = n ->
  memberOf this (k, fst (perform defaults c tr w)) /\
  countWarnings (console (snd (perform defaults c tr w))) = n.
Proof.
  intros (Hn & Hd & Hph) Hw. cbn [fst snd] in *.
  destruct (phase tr) as [ph|] eqn:Hp; [|contradiction].
  destruct (perform_step defaults c tr w ph Hp)
    as (Hp' & Hn' & Hd' & _ & _ & _ & Hw' & _).
  repeat split; cbn [fst snd]; try congruence.
Qed.

(** One broadcast call: what holds of the tracks and the count of warnings
    stay; on a group with its tracks as own properties only, nothing is
    thrown and the group stays so. *)
Lemma broadcast_step c onSource this w n :
  (forall s w0, countWarnings (console (snd (onSource s w0))) =
                countWarnings (console w0)) ->
  tracksInvariant this ->
  countWarnings (console w) = n ->
  tracksInvariant
    (snd (fst (mayThrow (TrackGroup.forIn (perform defaults c) onSource this) w)))
  /\
  countWarnings
    (console (snd (mayThrow (TrackGroup.forIn (perform defaults c) onSource this)
                     w))) = n /\
  (wellFormed this ->
   wellFormed
     (snd (fst (mayThrow (TrackGroup.forIn (perform defaults c) onSource this)
                  w))) /\
   fst (fst (mayThrow (TrackGroup.forIn (perform defaults c) onSource this) w))
     = None /\
   length (JsObject.own (TrackGroup.tracks
     (snd (fst (mayThrow (TrackGroup.forIn (perform defaults c) onSource this)
                  w))))) =
   length (JsObject.own (TrackGroup.tracks this))).
Proof.
  intros Hsrc [Hall Hproto] Hw.
  destruct (forOwn_preserves (memberOf this)
              (fun w => countWarnings (console w) = n) (perform defaults c)
              (fun k tr w0 => member_step this c k tr w0 n)
              (JsObject.keys (TrackGroup.tracks this)) this w Hall Hw)
    as (Hall' & Hw' & Hk & Hp & Hn & Hg).
  unfold mayThrow, TrackGroup.forIn, bind, ret.
  destruct (TrackGroup.forOwn (perform defaults c)
              (JsObject.keys (TrackGroup.tracks this)) this w) as [this1 w1].
  cbn [fst snd] in *.
  assert (Hinv1 : tracksInvariant this1).
  { split.
    - eapply Forall_impl; [|exact Hall'].
      intros entry. apply memberOf_gain, Hg.
    - rewrite Hp. destruct (JsObject.proto (TrackGroup.tracks this));
        [apply (memberOf_gain this), Hproto; exact Hg | exact I]. }
  destruct (JsObject.proto (TrackGroup.tracks this1)) as [p|] eqn:Hp1.
  - pose proof (forInherited_preserves
                  (fun w => countWarnings (console w) = n) onSource
                  (fun s w0 H => eq_trans (Hsrc s w0) H)
                  (enumerableFields p) (JsObject.keys (TrackGroup.tracks this1))
                  w1 Hw') as Hw2.
    destruct (TrackGroup.forInherited onSource (enumerableFields p)
                (JsObject.keys (TrackGroup.tracks this1)) w1) as [r w2].
    cbn [fst snd] in *. split; [exact Hinv1|]. split; [exact Hw2|].
    intros (_ & _ & Hnone). rewrite Hnone in Hp. discriminate.
  - cbn [fst snd thrown]. split; [exact Hinv1|]. split; [exact Hw'|].
    intros Hwf. split; [|split; [reflexivity|]].
    + apply (wellFormed_same this); try assumption. congruence.
    + apply keys_length, Hk.
Qed.

(** One call that goes to the primary track. *)
Lemma delegate_step {A} (method : TrackSingle.t -> M (A * TrackSingle.t))
    c this w n :
  (forall p w, dropResult (method p) w = perform defaults c p w) ->
  tracksInvariant this ->
  countWarnings (console w) = n ->
  tracksInvariant (snd (fst (mayThrow (TrackGroup.onPrimary method this) w))) /\
  countWarnings
    (console (snd (mayThrow (TrackGroup.onPrimary method this) w))) = n /\
  (wellFormed this ->
   wellFormed (snd (fst (mayThrow (TrackGroup.onPrimary method this) w))) /\
   fst (fst (mayThrow (TrackGroup.onPrimary method this) w)) = None /\
   length (JsObject.own (TrackGroup.tracks
     (snd (fst (mayThrow (TrackGroup.onPrimary method this) w))))) =
   length (JsObject.own (TrackGroup.tracks this))).
Proof.
  intros Hm [Hall Hproto] Hw.
  unfold mayThrow, TrackGroup.onPrimary, TrackGroup.primaryTrack,
    JsObject.get, JsObject.mutate, bind, ret.
  destruct (JsObject.lookup (TrackGroup.name this)
              (JsObject.own (TrackGroup.tracks this))) as [p|] eqn:Hget.
  - pose proof (lookup_In _ _ _ Hget) as Hin.
    pose proof (lookup_Forall _ _ _ _ Hget Hall) as Hmem.
    destruct (member_step this c _ p w n Hmem Hw) as [Hmem' Hw'].
    rewrite <- Hm in Hmem', Hw'. unfold dropResult, bind, ret in Hmem', Hw'.
    destruct (method p w) as [[a p'] w'].
    cbn [fst snd thrown TrackGroup.tracks TrackGroup.set_tracks] in *.
    split; [split|split].
    + cbn [JsObject.own]. apply Forall_replace; assumption.
    + cbn [JsObject.proto]. exact Hproto.
    + exact Hw'.
    + intros Hwf. split; [|split; [reflexivity|]].
      * apply (wellFormed_same this); try reflexivity; [|exact Hwf].
        unfold JsObject.keys. cbn. apply replace_keys.
      * cbn [JsObject.own].
        rewrite <- (length_map fst (JsObject.replace _ _ _)), replace_keys.
        apply length_map.
  - destruct (String.eqb (TrackGroup.name this) "__proto__");
      [destruct (JsObject.proto (TrackGroup.tracks this)) as [p|] eqn:Hp|].
    + destruct (member_step this c _ p w n Hproto Hw) as [Hmem' Hw'].
      rewrite <- Hm in Hmem', Hw'. unfold dropResult, bind, ret in Hmem', Hw'.
      destruct (method p w) as [[a p'] w'].
      cbn [fst snd thrown TrackGroup.tracks TrackGroup.set_tracks] in *.
      split; [split; [exact Hall | exact Hmem']|]. split; [exact Hw'|].
      intros (_ & Hl & _). contradiction.
    + cbn [fst snd thrown]. split; [split; [exact Hall|rewrite Hp; exact I]|].
      split; [exact Hw|]. intros (_ & Hl & _). contradiction.
    + cbn [fst snd thrown]. split; [split; assumption|].
      split; [exact Hw|]. intros (_ & Hl & _). contradiction.
Qed.

End GroupSteps.

Lemma newTrack_step name path source this w n :
  tracksInvariant this ->
  countWarnings (console w) = n ->
  tracksInvariant (snd (fst (TrackGroup.newTrack name path source this w))) /\
  countWarnings
    (console (snd (TrackGroup.newTrack name path source this w))) = n /\
  (wellFormed this -> name <> "__proto__" ->
   wellFormed (snd (fst (TrackGroup.newTrack name path source this w))) /\
   thrown (fst (fst (TrackGroup.newTrack name path source this w))) <>
     Some TypeError /\
   (length (JsObject.own (TrackGroup.tracks
              (snd (fst (TrackGroup.newTrack name path source this w))))) +
    match thrown (fst (fst (TrackGroup.newTrack name path source this w))) with
    | Some _ => 1
    | None => 0
    end = length (JsObject.own (TrackGroup.tracks this)) + 1)%nat).
Proof.
  intros [Hall Hproto] Hw. unfold TrackGroup.newTrack.
  destruct (String.eqb_spec name (TrackGroup.name this)) as [He|Hne].
  { cbn. split; [split; assumption|]. split; [exact Hw|]. intros Hwf _.
    split; [exact Hwf|]. split; [discriminate | lia]. }
  destruct (JsObject.includes name (JsObject.keys (TrackGroup.tracks this)))
    eqn:Hi.
  { cbn. split; [split; assumption|]. split; [exact Hw|]. intros Hwf _.
    split; [exact Hwf|]. split; [discriminate | lia]. }
  assert (Hnin : ~ In name (JsObject.keys (TrackGroup.tracks this))).
  { intros Hin. apply includes_In in Hin. congruence. }
  pose proof (lookup_notin _ _ Hnin) as Hnone.
  assert (Hnew : forall s g,
    let this' :=
      TrackGroup.set_tracks
        (JsObject.set name
           (TrackSingle.mk name (TrackGroup.gainNode this) s g 1 (Some s) None
              false)
           (TrackGroup.tracks this)) this in
    tracksInvariant this' /\
    (wellFormed this -> name <> "__proto__" ->
     wellFormed this' /\
     length (JsObject.own (TrackGroup.tracks this')) =
       S (length (JsObject.own (TrackGroup.tracks this))))).
  { intros s g. cbv zeta. unfold JsObject.set.
    assert (Hmem : forall k, k = name ->
              memberOf this
                (k, TrackSingle.mk name (TrackGroup.gainNode this) s g 1
                      (Some s) None false)).
    { intros k ->. repeat split; cbn; rewrite ?Nat.eqb_refl;
        discriminate || reflexivity. }
    destruct (String.eqb_spec name "__proto__") as [Hp|Hp].
    - split; [split; [exact Hall | apply Hmem; symmetry; exact Hp]|].
      intros _ Hc. contradiction.
    - split; [split|].
      + cbn. apply Forall_define; [exact Hall | apply Hmem; reflexivity].
      + exact Hproto.
      + intros (Hnd & Hl & Hpr) _. split; [repeat split|].
        * unfold JsObject.keys. cbn. apply define_NoDup, Hnd.
        * cbn. rewrite lookup_define_other by (exact (not_eq_sym Hne)).
          exact Hl.
        * exact Hpr.
        * cbn. apply define_length, Hnone. }
  unfold bind, ret, TrackSingle.new, createGain, newAudioSourceNode,
    freshNode, emit, bind, ret.
  destruct source as [s|]; [|destruct (TrackGroup.truthy_path path)];
    cbn [fst snd thrown console];
    match goal with
    | |- tracksInvariant (TrackGroup.set_tracks
           (JsObject.set _ (TrackSingle.mk _ _ ?s ?g _ _ _ _) _) _) /\ _ =>
        destruct (Hnew s g) as [Hinv' Hwf']
    end;
    (split; [exact Hinv'|]); (split; [exact Hw|]);
    intros Hwf Hp; destruct (Hwf' Hwf Hp) as [Hwf2 Hlen];
    (split; [exact Hwf2|]); (split; [discriminate|]);
    rewrite Hlen; lia.
Qed.

Section GroupPrograms.

Variable defaults : Defaults.

Lemma performOnGroup_step c this w n :
  tracksInvariant this ->
  countWarnings (console w) = n ->
  tracksInvariant (snd (fst (performOnGroup defaults c this w))) /\
  countWarnings (console (snd (performOnGroup defaults c this w))) = n /\
  (wellFormed this -> namesProto c = false ->
   wellFormed (snd (fst (performOnGroup defaults c this w))) /\
   fst (fst (performOnGroup defaults c this w)) <> Some TypeError /\
   (length (JsObject.own (TrackGroup.tracks
              (snd (fst (performOnGroup defaults c this w))))) +
    match fst (fst (performOnGroup defaults c this w)) with
    | Some _ => 1
    | None => 0
    end =
    length (JsObject.own (TrackGroup.tracks this)) +
    if isNewTrack c then 1 else 0)%nat).
Proof.
  intros Hinv Hw.
  assert (Hfinish : forall r : option JsError * TrackGroup.t * World,
    tracksInvariant (snd (fst r)) /\
    countWarnings (console (snd r)) = n /\
    (wellFormed this ->
     wellFormed (snd (fst r)) /\ fst (fst r) = None /\
     length (JsObject.own (TrackGroup.tracks (snd (fst r)))) =
       length (JsObject.own (TrackGroup.tracks this))) ->
    tracksInvariant (snd (fst r)) /\
    countWarnings (console (snd r)) = n /\
    (wellFormed this -> false = false ->
     wellFormed (snd (fst r)) /\ fst (fst r) <> Some TypeError /\
     (length (JsObject.own (TrackGroup.tracks (snd (fst r)))) +
      match fst (fst r) with Some _ => 1 | None => 0 end =
      length (JsObject.own (TrackGroup.tracks this)) + 0)%nat)).
  { intros r (H1 & H2 & H3). split; [exact H1|]. split; [exact H2|].
    intros Hwf _. destruct (H3 Hwf) as (Hwf' & Hnone & Hlen).
    rewrite Hnone, Hlen. split; [exact Hwf'|]. split; [discriminate | lia]. }
  assert (Hnosrc : forall s w0,
    countWarnings (console (snd (TrackGroup.noSuchMethod s w0))) =
    countWarnings (console w0)) by reflexivity.
  destruct c as [call|name path source].
  - destruct call; cbn [isNewTrack namesProto performOnGroup]; apply Hfinish.
    + apply (broadcast_step defaults (CallStart delay options duration));
        assumption || reflexivity.
    + apply (broadcast_step defaults (CallStop delay options)); assumption.
    + apply (delegate_step defaults _ (CallPlaySource path options));
        try assumption. reflexivity.
    + apply (delegate_step defaults _ (CallLoadSource path));
        try assumption. reflexivity.
    + apply (delegate_step defaults _ (CallSwap options));
        try assumption. reflexivity.
    + unfold TrackGroup.volume, returns, log, bind, ret. cbn [fst snd console].
      rewrite countWarnings_app. cbn. split; [exact Hinv|]. split; [lia|].
      intros Hwf. repeat split; apply Hwf.
    + apply (delegate_step defaults _ (CallLoop enabled startSample endSample));
        try assumption. reflexivity.
    + apply (delegate_step defaults _ (CallJump enabled fromSample toSample));
        try assumption. reflexivity.
    + apply (delegate_step defaults _ (CallCreateBeat type origin period));
        try assumption. reflexivity.
    + apply (broadcast_step defaults CallClearBeats); assumption.
    + apply (broadcast_step defaults (CallSyncPlayTo track options));
        assumption.
    + apply (broadcast_step defaults (CallSyncStopTo track options));
        assumption.
    + apply (delegate_step defaults _ (CallListenFor type callback));
        try assumption. reflexivity.
  - cbn [isNewTrack namesProto performOnGroup].
    destruct (newTrack_step name path source this w n Hinv Hw)
      as (Hi & Hw' & Hrest).
    unfold mayThrow, bind, ret.
    destruct (TrackGroup.newTrack name path source this w) as [[res this'] w'].
    cbn [fst snd] in *. split; [exact Hi|]. split; [exact Hw'|].
    intros Hwf Hp. apply Hrest; [exact Hwf|].
    intros ->. discriminate.
Qed.

Lemma performAllOnGroup_run cs :
  forall this w n,
    tracksInvariant this ->
    countWarnings (console w) = n ->
    tracksInvariant (snd (fst (performAllOnGroup defaults cs this w))) /\
    countWarnings (console (snd (performAllOnGroup defaults cs this w))) = n /\
    (wellFormed this -> Forall (fun c => namesProto c = false) cs ->
     wellFormed (snd (fst (performAllOnGroup defaults cs this w))) /\
     Forall (fun e => e <> TypeError)
            (fst (fst (performAllOnGroup defaults cs this w))) /\
     (length (JsObject.own (TrackGroup.tracks
                (snd (fst (performAllOnGroup defaults cs this w))))) +
      length (fst (fst (performAllOnGroup defaults cs this w))) =
      length (JsObject.own (TrackGroup.tracks this)) +
      length (filter isNewTrack cs))%nat).
Proof.
  induction cs as [|c cs IH]; intros this w n Hinv Hw.
  - cbn. split; [exact Hinv|]. split; [exact Hw|]. intros Hwf _.
    split; [exact Hwf|]. split; [constructor | lia].
  - destruct (performOnGroup_step c this w n Hinv Hw) as (Hi & Hw' & Hrest).
    cbn [performAllOnGroup]. unfold bind, ret.
    destruct (performOnGroup defaults c this w) as [[err this1] w1].
    cbn [fst snd] in *.
    destruct (IH this1 w1 n Hi Hw') as (Hi2 & Hw2 & Hrest2).
    destruct (performAllOnGroup defaults cs this1 w1) as [[errs this2] w2].
    cbn [fst snd] in *.
    split; [exact Hi2|]. split; [exact Hw2|]. intros Hwf Hcs.
    inversion Hcs as [|x l Hc Hl]; subst.
    destruct (Hrest Hwf Hc) as (Hwf1 & Ht & Hlen).
    destruct (Hrest2 Hwf1 Hl) as (Hwf2 & Hf2 & Hlen2).
    split; [exact Hwf2|]. split.
    + destruct err; [constructor; [congruence|]|]; assumption.
    + cbn [filter]. destruct (isNewTrack c), err; cbn [length]; lia.
Qed.

End GroupPrograms.

Lemma new_tracksInvariant name destination source w :
  tracksInvariant (fst (TrackGroup.new name destination source w)).
Proof.
  assert (Hmem : forall k g g', k = name ->
            memberOf (TrackGroup.mk name destination source g
                        (JsObject.mk [] None))
              (k, TrackSingle.mk name g source g' 1 (Some source) None false)).
  { intros k g g' ->. repeat split; cbn; rewrite ?Nat.eqb_refl;
      discriminate || reflexivity. }
  unfold tracksInvariant. cbn -[JsObject.set]. unfold JsObject.set.
  destruct (String.eqb_spec name "__proto__") as [Hp|Hp];
    cbn [JsObject.own JsObject.proto TrackGroup.tracks JsObject.empty].
  - split; [constructor|]. apply (Hmem "__proto__"). symmetry. exact Hp.
  - split; [|exact I]. apply Forall_define; [constructor|].
    apply (Hmem name). reflexivity.
Qed.

Lemma groupProgram_run defaults name destination source cs w :
  groupProgram defaults name destination source cs w =
  performAllOnGroup defaults cs
    (fst (TrackGroup.new name destination source w))
    (snd (TrackGroup.new name destination source w)).
Proof. reflexivity. Qed.

Lemma new_group_console name destination source w :
  console (snd (TrackGroup.new name destination source w)) = console w.
Proof. reflexivity. Qed.

Lemma new_group_length name destination source w :
  name <> "__proto__" ->
  length (JsObject.own (TrackGroup.tracks
            (fst (TrackGroup.new name destination source w)))) = 1%nat.
Proof.
  intros Hp. cbn -[JsObject.set]. unfold JsObject.set.
  destruct (String.eqb_spec name "__proto__"); [contradiction|].
  cbn [JsObject.own JsObject.empty TrackGroup.tracks]. apply define_length.
  reflexivity.
Qed.

(** The keys of a group come out as [Object.keys] gives them: the tracks
    named ["2"] and ["1"], added in that order, stand before the primary
    track, ["1"] first. *)
Example indexedGroup_keys :
  JsObject.keys (TrackGroup.tracks (snd (fst indexedGroup))) = ["1"; "2"; "grp"].
Proof. reflexivity. Qed.

(** X6.  On a group whose name is not [__proto__], whatever calls it has
    received since its construction, none of them a [newTrack] of the name
    [__proto__]: each name is there once, the primary track is there, no
    track has become the prototype, and every member is stored under its own
    name, feeds the gain node of the group and is in one of the three phases
    of a track. *)
Theorem group_invariant_kept defaults name destination source cs w :
  name <> "__proto__" ->
  Forall (fun c => namesProto c = false) cs ->
  groupInvariant
    (snd (fst (groupProgram defaults name destination source cs w))).
Proof.
  intros Hp Hcs. rewrite groupProgram_run.
  destruct (performAllOnGroup_run defaults cs _
              (snd (TrackGroup.new name destination source w)) _
              (new_tracksInvariant name destination source w) eq_refl)
    as ([Hall _] & _ & Hrest).
  destruct (Hrest (new_wellFormed name destination source w Hp) Hcs)
    as (Hwf & _).
  split; assumption.
Qed.

(** The sample program on the sample group. *)
Lemma group_invariant_kept_witness :
  groupInvariant
    (snd (fst (groupProgram sampleDefaults "grp" 0%nat 0%nat sampleProgram
                 sampleWorld))).
Proof.
  apply (group_invariant_kept sampleDefaults "grp" 0%nat 0%nat sampleProgram
           sampleWorld).
  - discriminate.
  - repeat constructor.
Defined.

(** X7.  On a group whose name is not [__proto__], no run of calls without a
    [newTrack] of the name [__proto__] throws a [TypeError]: the primary
    track is always there for the methods that go to it.  Every [newTrack]
    either adds one member or throws, and nothing else changes the number of
    members. *)
Theorem group_throws_only_from_newTrack defaults name destination source cs w :
  name <> "__proto__" ->
  Forall (fun c => namesProto c = false) cs ->
  Forall (fun e => e <> TypeError)
         (fst (fst (groupProgram defaults name destination source cs w))) /\
  (length (JsObject.own (TrackGroup.tracks
             (snd (fst (groupProgram defaults name destination source cs w))))) +
   length (fst (fst (groupProgram defaults name destination source cs w))) =
   1 + length (filter isNewTrack cs))%nat.
Proof.
  intros Hp Hcs. rewrite groupProgram_run.
  destruct (performAllOnGroup_run defaults cs _
              (snd (TrackGroup.new name destination source w)) _
              (new_tracksInvariant name destination source w) eq_refl)
    as (_ & _ & Hrest).
  destruct (Hrest (new_wellFormed name destination source w Hp) Hcs)
    as (_ & Hf & Hlen).
  rewrite (new_group_length name destination source w Hp) in Hlen.
  split; [exact Hf | exact Hlen].
Qed.

(** The sample program: two calls of [newTrack], one of them refused, leave
    two members and one error. *)
Lemma group_throws_only_from_newTrack_witness :
  Forall (fun e => e <> TypeError)
         (fst (fst (groupProgram sampleDefaults "grp" 0%nat 0%nat sampleProgram
                      sampleWorld))) /\
  (length (JsObject.own (TrackGroup.tracks
             (snd (fst (groupProgram sampleDefaults "grp" 0%nat 0%nat
                          sampleProgram sampleWorld))))) +
   length (fst (fst (groupProgram sampleDefaults "grp" 0%nat 0%nat
                       sampleProgram sampleWorld))) = 1 + 2)%nat.
Proof.
  apply (group_throws_only_from_newTrack sampleDefaults "grp" 0%nat 0%nat
           sampleProgram sampleWorld).
  - discriminate.
  - repeat constructor.
Defined.

(** X8.  No run of calls on a group makes the [start] of a member warn. *)
Theorem group_never_warns defaults name destination source cs w :
  countWarnings
    (console (snd (groupProgram defaults name destination source cs w))) =
  countWarnings (console w).
Proof.
  rewrite groupProgram_run.
  destruct (performAllOnGroup_run defaults cs _
              (snd (TrackGroup.new name destination source w)) _
              (new_tracksInvariant name destination source w) eq_refl)
    as (_ & Hw & _).
  rewrite Hw. rewrite new_group_console. reflexivity.
Qed.





(** C8.  [newTrack("__proto__")] on the sample group returns a track and
    adds no key to [tracks]: the track has become the prototype of the
    object, where [tracks["__proto__"]] finds it.  The same call once more
    is not refused: it returns another track, which takes the place of the
    first. *)
Theorem newTrack_accepts_proto_twice :
  (exists tr,
     fst (fst protoTrackOnce) = Ok tr /\
     TrackSingle.name tr = "__proto__" /\
     TrackGroup.track "__proto__" (snd (fst protoTrackOnce)) =
       JsObject.Found tr) /\
  JsObject.keys (TrackGroup.tracks (snd (fst protoTrackOnce))) = ["grp"] /\
  (exists tr,
     fst (fst protoTrackTwice) = Ok tr /\
     TrackGroup.track "__proto__" (snd (fst protoTrackTwice)) =
       JsObject.Found tr /\
     fst (fst protoTrackOnce) <> Ok tr) /\
  thrown (fst (fst protoTrackTwice)) = None /\
  JsObject.keys (TrackGroup.tracks (snd (fst protoTrackTwice))) = ["grp"].
Proof.
  split; [|split; [|split; [|split]]]; try reflexivity.
  - eexists. repeat split; reflexivity.
  - eexists. split; [reflexivity|]. split; [reflexivity|]. discriminate.
Qed.

(** C9.  After [newTrack("__proto__")] the [start] of the group starts the
    primary track and then throws a [TypeError], at the field [name] of the
    track that is the prototype: that track, which [track("__proto__")]
    gives, is left staged and its source is not started.  On a group that is
    itself named [__proto__] the primary track is the prototype, [tracks]
    has no key, and [start] throws without starting anything. *)
Theorem group_start_misses_proto_track :
  (exists tr,
     fst (fst protoTrackOnce) = Ok tr /\
     TrackGroup.track "__proto__" (snd (fst protoTrackOnce)) =
       JsObject.Found tr /\
     fst (fst startOnProtoTrack) = Throw TypeError /\
     TrackGroup.track "__proto__" (snd (fst startOnProtoTrack)) =
       JsObject.Found tr /\
     phase tr = Some Staged /\
     map fst (scheduledStarts (graph (snd startOnProtoTrack))) = [0%nat] /\
     TrackSingle.source tr <> 0%nat) /\
  (exists tr,
     TrackGroup.primaryTrack (fst protoGroup) = JsObject.Found tr /\
     JsObject.keys (TrackGroup.tracks (fst protoGroup)) = [] /\
     fst (fst startOnProtoGroup) = Throw TypeError /\
     TrackGroup.primaryTrack (snd (fst startOnProtoGroup)) =
       JsObject.Found tr /\
     phase tr = Some Staged /\
     scheduledStarts (graph (snd startOnProtoGroup)) = []).
Proof.
  split.
  - eexists. split; [reflexivity|]. repeat split; try reflexivity.
    discriminate.
  - eexists. split; [reflexivity|]. repeat split; reflexivity.
Qed.
